(** * Pellucid privacy service: a shallow embedding of [privacy_service.py]

    The development models the anonymisation core of
    [pellucid-labeling-api/privacy_service.py] (class [PrivacyService] and
    the endpoints built on it) together with the batch endpoint of
    [pellucid-labeling-api/main.py].

    Conventions of the model.
    - Python [str] values are [string]s of 8-bit characters; [str.lower],
      [\D] and [int(d)] are modelled on the ASCII range.
    - Python [int] offsets are [Z]; slices follow Python's rules for
      negative and out-of-range bounds.
    - The two confidences the code uses ([0.9], [0.95]), the thresholds
      ([0.8], [0.7], [0.6]) and the privacy score are integers counting
      hundredths; the comparisons the code makes on them come out the same,
      the floating-point rounding of the score is not modelled.
    - [self.token_map] is a [gmap string string]; the file
      [token_map.json] is part of the state.
    - The keyed digest, the NER tagger and the compiled regular expressions
      are external capabilities, collected in the class [Capabilities].
    - The wall-clock [processing_time] is not modelled. *)

From Stdlib Require Import ZArith Ascii String List Lia.
From stdpp Require Import base option list sorting gmap strings.

Local Open Scope string_scope.
Local Open Scope list_scope.
Local Open Scope Z_scope.

(** ** Strings as Python uses them *)

Module PyStr.

Fixpoint take (n : nat) (s : string) : string :=
  match n, s with
  | O, _ => ""
  | S _, "" => ""
  | S n', String c s' => String c (take n' s')
  end.

Fixpoint drop (n : nat) (s : string) : string :=
  match n, s with
  | O, _ => s
  | S _, "" => ""
  | S n', String _ s' => drop n' s'
  end.

(** [len(s)] *)
Definition len (s : string) : Z := Z.of_nat (String.length s).

(** Python normalises a slice bound [i] against the length [n]:
    a negative bound counts from the end, and the result is clamped
    to [0 .. n]. *)
Definition clamp (n i : Z) : nat :=
  Z.to_nat (Z.max 0 (Z.min n (if i <? 0 then n + i else i))).

(** [s[:i]] *)
Definition slice_to (s : string) (i : Z) : string :=
  take (clamp (len s) i) s.

(** [s[i:]] *)
Definition slice_from (s : string) (i : Z) : string :=
  drop (clamp (len s) i) s.

(** [s[a:b]] for literal bounds [0 <= a <= b]. *)
Definition slice (s : string) (a b : nat) : string :=
  take (b - a) (drop a s).

Fixpoint map (f : ascii -> ascii) (s : string) : string :=
  match s with
  | "" => ""
  | String c s' => String (f c) (map f s')
  end.

Fixpoint filter (p : ascii -> bool) (s : string) : string :=
  match s with
  | "" => ""
  | String c s' => if p c then String c (filter p s') else filter p s'
  end.

Fixpoint forallb (p : ascii -> bool) (s : string) : bool :=
  match s with
  | "" => true
  | String c s' => p c && forallb p s'
  end.

(** [sep.join(parts)] *)
Fixpoint join (sep : string) (parts : list string) : string :=
  match parts with
  | [] => ""
  | [p] => p
  | p :: rest => p +:+ sep +:+ join sep rest
  end.

Definition is_digit (c : ascii) : bool :=
  let n := nat_of_ascii c in (48 <=? n)%nat && (n <=? 57)%nat.

Definition is_upper (c : ascii) : bool :=
  let n := nat_of_ascii c in (65 <=? n)%nat && (n <=? 90)%nat.

Definition lower_char (c : ascii) : ascii :=
  if is_upper c then ascii_of_nat (nat_of_ascii c + 32) else c.

(** [s.lower()] *)
Definition lower (s : string) : string := map lower_char s.

(** [range(0, stop, step)] for [step > 0]. *)
Definition range_step (stop step : nat) : list nat :=
  List.map (fun j => (j * step)%nat) (seq 0 ((stop + step - 1) / step)).

End PyStr.

(** ** The enumerations *)

Inductive PrivacyLevel := MINIMAL | STANDARD | STRICT.

Inductive EntityType :=
  | PERSON | EMAIL | PHONE | CREDIT_CARD | SSN | ADDRESS
  | ORGANIZATION | LOCATION | DATE | TIME | MONEY | PERCENT.

#[global] Instance PrivacyLevel_eq_dec : EqDecision PrivacyLevel.
Proof. solve_decision. Defined.

#[global] Instance EntityType_eq_dec : EqDecision EntityType.
Proof. solve_decision. Defined.

Module PrivacyLevelEnum.
Definition value (l : PrivacyLevel) : string :=
  match l with
  | MINIMAL => "minimal"
  | STANDARD => "standard"
  | STRICT => "strict"
  end.

Definition members : list PrivacyLevel := [MINIMAL; STANDARD; STRICT].

(** [PrivacyLevel(s)], also the key comparison of a [str] against the
    members of the [str]-based enumeration. *)
Definition of_value (s : string) : option PrivacyLevel :=
  List.find (fun l => bool_decide (value l = s)) members.
End PrivacyLevelEnum.

Module EntityTypeEnum.
Definition value (t : EntityType) : string :=
  match t with
  | PERSON => "PERSON"
  | EMAIL => "EMAIL"
  | PHONE => "PHONE"
  | CREDIT_CARD => "CREDIT_CARD"
  | SSN => "SSN"
  | ADDRESS => "ADDRESS"
  | ORGANIZATION => "ORG"
  | LOCATION => "GPE"
  | DATE => "DATE"
  | TIME => "TIME"
  | MONEY => "MONEY"
  | PERCENT => "PERCENT"
  end.

(** [list(EntityType)], in declaration order. *)
Definition members : list EntityType :=
  [PERSON; EMAIL; PHONE; CREDIT_CARD; SSN; ADDRESS;
   ORGANIZATION; LOCATION; DATE; TIME; MONEY; PERCENT].

(** [EntityType(label)] *)
Definition of_value (s : string) : option EntityType :=
  List.find (fun t => bool_decide (value t = s)) members.
End EntityTypeEnum.

(** ** Data *)

(** [@dataclass SensitiveSpan]; [confidence] in hundredths. *)
Record SensitiveSpan := mkSpan {
  text : string;
  start : Z;
  end_ : Z;
  entity_type : EntityType;
  confidence : Z;
  replacement : string
}.

#[global] Instance SensitiveSpan_eq_dec : EqDecision SensitiveSpan.
Proof. solve_decision. Defined.

(** One element of [doc.ents]. *)
Record Ent := mkEnt {
  ent_text : string;
  start_char : Z;
  end_char : Z;
  label_ : string
}.

(** One regular-expression match: [group()], [start()], [end()]. *)
Record Match := mkMatch {
  m_group : string;
  m_start : Z;
  m_end : Z
}.

(** Exceptions that reach the endpoints. *)
Inductive Exception :=
  | KeyError (key : string)
  | JSONDecodeError
  | TaggerError (msg : string).

(** [str(e)] *)
Definition exc_str (e : Exception) : string :=
  match e with
  | KeyError k => "'" +:+ k +:+ "'"
  | JSONDecodeError => "Expecting value"
  | TaggerError m => m
  end.

(** The outcome of a call that may raise. *)
Inductive Result (A : Type) :=
  | Ok (a : A)
  | Raise (e : Exception).
Arguments Ok {A} a.
Arguments Raise {A} e.

(** The external capabilities the service is built on.
    - [hmac_sha256_hexdigest key msg] is
      [hmac.new(key, msg, hashlib.sha256).hexdigest()];
    - [nlp] is the module-level spaCy pipeline: [None] when the model could
      not be loaded, otherwise a tagger that returns [doc.ents] or raises;
    - [finditer t s] lists the matches of [self.patterns[t]] in [s]. *)
Class Capabilities := {
  hmac_sha256_hexdigest : string -> string -> string;
  nlp : option (string -> Result (list Ent));
  finditer : EntityType -> string -> list Match
}.

(** The file [token_map.json]. *)
Inductive TokenFile :=
  | FileNotFound
  | FileInvalid
  | FileJson (m : gmap string string).

(** The fields of a [PrivacyService] that change or are read after
    construction, with the backing file. *)
Record PrivacyService := mkService {
  secret_key : string;
  token_map : gmap string string;
  token_file : TokenFile
}.

(** One entry of [self.privacy_configs]. *)
Record Config := mkConfig {
  entities : list EntityType;
  confidence_threshold : Z
}.

(** One dictionary of [entities_found]. *)
Record AuditEntry := mkAudit {
  a_original : string;
  a_replacement : string;
  a_entity_type : string;
  a_confidence : Z;
  a_start : Z;
  a_end : Z
}.

(** ** Sorting

    [list.sort] is stable; insertion from the right into a sorted tail,
    in front of the first element that is not strictly smaller, is the
    stable sort of a list. *)

Section StableSort.
Context {A : Type} (ltb : A -> A -> bool).

Fixpoint insert_stable (x : A) (l : list A) : list A :=
  match l with
  | [] => [x]
  | y :: l' => if ltb y x then y :: insert_stable x l' else x :: y :: l'
  end.

Definition stable_sort (l : list A) : list A :=
  foldr insert_stable [] l.

(** [x] may stand in front of [y]. *)
Definition not_after (x y : A) : Prop := ltb y x = false.
End StableSort.

(** [a < b] on the tuples [(int, float)] that serve as sort keys. *)
Definition tuple_ltb (a b : Z * Z) : bool :=
  if a.1 =? b.1 then a.2 <? b.2 else a.1 <? b.1.

(** ** The span resolver: [_remove_overlapping_entities] *)

(** [key=lambda x: (x.start, -x.confidence)] *)
Definition resolver_key (x : SensitiveSpan) : Z * Z :=
  (start x, - confidence x).

(** [entity.start < added.end and entity.end > added.start] *)
Definition overlaps (entity added : SensitiveSpan) : bool :=
  (start entity <? end_ added) && (end_ entity >? start added).

(** The loop over the sorted entities; [filtered] is the list built so far. *)
Fixpoint resolver_loop (ents filtered : list SensitiveSpan)
  : list SensitiveSpan :=
  match ents with
  | [] => filtered
  | entity :: rest =>
      if existsb (overlaps entity) filtered
      then resolver_loop rest filtered
      else resolver_loop rest (filtered ++ [entity])
  end.

Definition _remove_overlapping_entities (ents : list SensitiveSpan)
  : list SensitiveSpan :=
  match ents with
  | [] => ents
  | _ =>
      resolver_loop
        (stable_sort (fun a b => tuple_ltb (resolver_key a) (resolver_key b)) ents)
        []
  end.

(** ** Overlap and order of spans *)

(** Two spans share a character position. *)
Definition span_overlap (a b : SensitiveSpan) : Prop :=
  start a < end_ b ∧ start b < end_ a.

(** No two elements at different positions of [l] overlap. *)
Definition pairwise_disjoint (l : list SensitiveSpan) : Prop :=
  ∀ (i j : nat) a b,
    (i < j)%nat → l !! i = Some a → l !! j = Some b → ¬ span_overlap a b.

Definition resolver_ltb (a b : SensitiveSpan) : bool :=
  tuple_ltb (resolver_key a) (resolver_key b).

(** [c] comes strictly after [a] in the order of the sort: it starts
    later, or starts at the same offset with a lower confidence. *)
Definition sorts_after (a c : SensitiveSpan) : Prop :=
  start a < start c ∨ (start a = start c ∧ confidence c < confidence a).

(** ** The service *)

Section Service.
Context `{Capabilities}.

Import PyStr.

(** [self.privacy_configs[privacy_level]] *)
Definition privacy_configs (privacy_level : PrivacyLevel) : Config :=
  match privacy_level with
  | MINIMAL => mkConfig [EMAIL; PHONE; CREDIT_CARD; SSN] 80
  | STANDARD =>
      mkConfig [PERSON; EMAIL; PHONE; CREDIT_CARD; SSN; ADDRESS; ORGANIZATION] 70
  | STRICT => mkConfig EntityTypeEnum.members 60
  end.

(** The keys of [self.patterns], in insertion order. *)
Definition patterns : list EntityType :=
  [EMAIL; PHONE; CREDIT_CARD; SSN; MONEY; PERCENT].

Definition load_token_map (svc : PrivacyService) : Result PrivacyService :=
  match token_file svc with
  | FileJson m => Ok (mkService (secret_key svc) m (token_file svc))
  | FileNotFound => Ok (mkService (secret_key svc) ∅ (token_file svc))
  | FileInvalid => Raise JSONDecodeError
  end.

Definition save_token_map (svc : PrivacyService) : PrivacyService :=
  mkService (secret_key svc) (token_map svc) (FileJson (token_map svc)).

(** [PrivacyService.__init__]: [secret_key] is the constructor argument,
    [env] the value of [PRIVACY_SECRET_KEY] if it is set, [token_hex] the
    value [secrets.token_hex(32)] draws, and [file] the state of
    [token_map.json].  The empty string is falsy, so [secret_key or ...]
    passes over it. *)
Definition init (secret_key : option string) (env : option string)
    (token_hex : string) (file : TokenFile) : Result PrivacyService :=
  let getenv := default token_hex env in
  let key :=
    match secret_key with
    | Some k => if bool_decide (k = "") then getenv else k
    | None => getenv
    end in
  load_token_map (mkService key ∅ file).

(** [f"{entity_type.value}:{original_text.lower()}"] *)
Definition vault_key (original_text : string) (entity_type : EntityType)
  : string :=
  EntityTypeEnum.value entity_type +:+ ":" +:+ lower original_text.

Definition generate_deterministic_token (svc : PrivacyService)
    (original_text : string) (entity_type : EntityType) : string :=
  let message := vault_key original_text entity_type in
  let token := take 8 (hmac_sha256_hexdigest (secret_key svc) message) in
  "<" +:+ EntityTypeEnum.value entity_type +:+ ":" +:+ token +:+ ">".

Definition get_or_create_replacement (original_text : string)
    (entity_type : EntityType) (svc : PrivacyService)
  : string * PrivacyService :=
  let key := vault_key original_text entity_type in
  let svc' :=
    match token_map svc !! key with
    | None =>
        save_token_map
          (mkService (secret_key svc)
             (<[key := generate_deterministic_token svc original_text entity_type]>
                (token_map svc))
             (token_file svc))
    | Some _ => svc
    end in
  (token_map svc' !!! key, svc').

(** *** Detection *)

(** The body of [for ent in doc.ents]; [acc] is the list [entities]. *)
Fixpoint ner_loop (config : Config) (ents : list Ent)
    (acc : list SensitiveSpan) (svc : PrivacyService)
  : list SensitiveSpan * PrivacyService :=
  match ents with
  | [] => (acc, svc)
  | ent :: rest =>
      if bool_decide (label_ ent ∈ EntityTypeEnum.value <$> entities config) then
        match EntityTypeEnum.of_value (label_ ent) with
        | Some entity_type =>
            let confidence := 90 in
            if confidence_threshold config <=? confidence then
              let '(replacement, svc') :=
                get_or_create_replacement (ent_text ent) entity_type svc in
              ner_loop config rest
                (acc ++ [mkSpan (ent_text ent) (start_char ent) (end_char ent)
                           entity_type confidence replacement])
                svc'
            else ner_loop config rest acc svc
        | None => ner_loop config rest acc svc
        end
      else ner_loop config rest acc svc
  end.

(** The body of [for match in pattern.finditer(text)]. *)
Fixpoint match_loop (entity_type : EntityType) (ms : list Match)
    (acc : list SensitiveSpan) (svc : PrivacyService)
  : list SensitiveSpan * PrivacyService :=
  match ms with
  | [] => (acc, svc)
  | m :: rest =>
      let original_text := m_group m in
      let '(replacement, svc') :=
        get_or_create_replacement original_text entity_type svc in
      match_loop entity_type rest
        (acc ++ [mkSpan original_text (m_start m) (m_end m)
                   entity_type 95 replacement])
        svc'
  end.

(** The body of [for entity_type, pattern in self.patterns.items()]. *)
Fixpoint pattern_loop (config : Config) (s : string) (pats : list EntityType)
    (acc : list SensitiveSpan) (svc : PrivacyService)
  : list SensitiveSpan * PrivacyService :=
  match pats with
  | [] => (acc, svc)
  | entity_type :: rest =>
      if bool_decide (entity_type ∈ entities config) then
        let '(acc', svc') :=
          match_loop entity_type (finditer entity_type s) acc svc in
        pattern_loop config s rest acc' svc'
      else pattern_loop config s rest acc svc
  end.

(** Steps 1 and 2 of [detect_sensitive_entities]: the list [entities]
    as it stands before overlaps are removed. *)
Definition collect_entities (s : string) (privacy_level : PrivacyLevel)
    (svc : PrivacyService) : Result (list SensitiveSpan) * PrivacyService :=
  let config := privacy_configs privacy_level in
  match nlp with
  | Some tagger =>
      match tagger s with
      | Raise e => (Raise e, svc)
      | Ok ents =>
          let '(acc, svc1) := ner_loop config ents [] svc in
          let '(acc', svc2) := pattern_loop config s patterns acc svc1 in
          (Ok acc', svc2)
      end
  | None =>
      let '(acc', svc2) := pattern_loop config s patterns [] svc in
      (Ok acc', svc2)
  end.

Definition detect_sensitive_entities (s : string)
    (privacy_level : PrivacyLevel) (svc : PrivacyService)
  : Result (list SensitiveSpan) * PrivacyService :=
  match collect_entities s privacy_level svc with
  | (Ok ents, svc') => (Ok (_remove_overlapping_entities ents), svc')
  | (Raise e, svc') => (Raise e, svc')
  end.

(** *** The format-preserving substitution *)

(** [re.sub(r'\D', '', text)] *)
Definition digits_of (s : string) : string := filter is_digit s.

(** [str((int(d) + k) % 10)] *)
Definition shift_digit (k : nat) (d : ascii) : ascii :=
  ascii_of_nat (48 + (nat_of_ascii d - 48 + k) mod 10).

(** ['-'.join([encrypted[i:i+4] for i in range(0, len(encrypted), 4)])] *)
Definition group4 (encrypted : string) : string :=
  join "-"
    (List.map (fun i => slice encrypted i (i + 4))
       (range_step (String.length encrypted) 4)).

Definition apply_format_preserving_encryption (svc : PrivacyService)
    (s : string) (entity_type : EntityType) : string :=
  let fallback := generate_deterministic_token svc s entity_type in
  match entity_type with
  | PHONE =>
      let digits := digits_of s in
      if (String.length digits =? 10)%nat then
        let encrypted := map (shift_digit 3) digits in
        "(" +:+ take 3 encrypted +:+ ") " +:+ slice encrypted 3 6 +:+ "-"
            +:+ drop 6 encrypted
      else fallback
  | CREDIT_CARD =>
      let digits := digits_of s in
      if (13 <=? String.length digits)%nat then
        let encrypted := map (shift_digit 2) digits in
        group4 encrypted
      else fallback
  | SSN =>
      let digits := digits_of s in
      if (String.length digits =? 9)%nat then
        let encrypted := map (shift_digit 1) digits in
        take 3 encrypted +:+ "-" +:+ slice encrypted 3 5 +:+ "-"
            +:+ drop 5 encrypted
      else fallback
  | _ => fallback
  end.

(** *** Sanitisation *)

(** The replacement chosen for one entity in the loop of
    [sanitize_text]. *)
Definition choose_replacement (svc : PrivacyService) (preserve_format : bool)
    (entity : SensitiveSpan) : string :=
  if preserve_format
     && bool_decide (entity_type entity ∈ [PHONE; CREDIT_CARD; SSN])
  then apply_format_preserving_encryption svc (text entity) (entity_type entity)
  else replacement entity.

(** [sanitized_text[:entity.start] + replacement + sanitized_text[entity.end:]] *)
Definition splice (sanitized_text : string) (entity : SensitiveSpan)
    (repl : string) : string :=
  slice_to sanitized_text (start entity) +:+ repl
    +:+ slice_from sanitized_text (end_ entity).

(** The loop [for entity in entities] of [sanitize_text]. *)
Fixpoint replace_loop (svc : PrivacyService) (preserve_format : bool)
    (ents : list SensitiveSpan) (sanitized_text : string)
    (entities_found : list AuditEntry) : string * list AuditEntry :=
  match ents with
  | [] => (sanitized_text, entities_found)
  | entity :: rest =>
      let repl := choose_replacement svc preserve_format entity in
      replace_loop svc preserve_format rest
        (splice sanitized_text entity repl)
        (entities_found ++
           [mkAudit (text entity) repl
              (EntityTypeEnum.value (entity_type entity))
              (confidence entity) (start entity) (end_ entity)])
  end.

(** [min(1.0, len(entities) * 0.1 + 0.5)], in hundredths. *)
Definition privacy_score_of (ents : list SensitiveSpan) : Z :=
  Z.min 100 (Z.of_nat (length ents) * 10 + 50).

(** The order of [entities.sort(key=lambda x: x.start, reverse=True)]:
    [a] goes in front of [b] when it starts later. *)
Definition start_desc (a b : SensitiveSpan) : bool := start b <? start a.

(** [sanitize_text] returns the sanitised text, the privacy score and
    [entities_found]. *)
Definition sanitize_text (s : string) (privacy_level : PrivacyLevel)
    (preserve_format : bool) (svc : PrivacyService)
  : Result (string * Z * list AuditEntry) * PrivacyService :=
  match detect_sensitive_entities s privacy_level svc with
  | (Raise e, svc') => (Raise e, svc')
  | (Ok ents, svc') =>
      let ents := stable_sort start_desc ents in
      let '(sanitized_text, entities_found) :=
        replace_loop svc' preserve_format ents s [] in
      (Ok (sanitized_text, privacy_score_of ents, entities_found), svc')
  end.

(** The same method called with a plain [str] for [privacy_level], as
    [main.py] does: the lookup [self.privacy_configs[privacy_level]]
    raises [KeyError] unless the string is the value of a member. *)
Definition sanitize_text_str (s : string) (privacy_level : string)
    (preserve_format : bool) (svc : PrivacyService)
  : Result (string * Z * list AuditEntry) * PrivacyService :=
  match PrivacyLevelEnum.of_value privacy_level with
  | Some l => sanitize_text s l preserve_format svc
  | None => (Raise (KeyError privacy_level), svc)
  end.

End Service.

(** ** The endpoints of [privacy_service.py] *)

Record PrivacyRequest := mkRequest {
  req_text : string;
  req_privacy_level : PrivacyLevel;
  req_preserve_format : bool
}.

Record PrivacyResponse := mkResponse {
  sanitized_text : string;
  privacy_score : Z;
  entities_found : list AuditEntry;
  resp_privacy_level : PrivacyLevel
}.

(** One element of the list [results] of [/batch-anonymize]: a
    [PrivacyResponse], or the dictionary with the keys ["error"] and
    ["original_text"]. *)
Inductive BatchItem :=
  | ItemResponse (r : PrivacyResponse)
  | ItemError (error : string) (original_text : string).

(** An HTTP answer: the body of a 200, or the status of an
    [HTTPException]. *)
Inductive Response (A : Type) :=
  | HTTP200 (body : A)
  | HTTPError (status : Z).
Arguments HTTP200 {A} body.
Arguments HTTPError {A} status.

(** One dictionary of the list ["entities"] of [/entities/detected]. *)
Record DetectedEntity := mkDetected {
  d_text : string;
  d_entity_type : string;
  d_confidence : Z;
  d_start : Z;
  d_end : Z;
  d_replacement : string
}.

Record DetectedResponse := mkDetectedResponse {
  dr_text : string;
  dr_entities : list DetectedEntity;
  dr_count : Z
}.

Module Endpoints.
Section Endpoints.
Context `{Capabilities}.

Definition anonymize_text (request : PrivacyRequest) (svc : PrivacyService)
: Response PrivacyResponse * PrivacyService :=
match sanitize_text (req_text request) (req_privacy_level request)
      (req_preserve_format request) svc with
| (Ok (sanitized, score, found), svc') =>
  (HTTP200 (mkResponse sanitized score found (req_privacy_level request)),
   svc')
| (Raise e, svc') => (HTTPError 500, svc')
end.

(** The body of [for request in requests]. *)
Definition batch_item (request : PrivacyRequest) (svc : PrivacyService)
: BatchItem * PrivacyService :=
match sanitize_text (req_text request) (req_privacy_level request)
      (req_preserve_format request) svc with
| (Ok (sanitized, score, found), svc') =>
  (ItemResponse
     (mkResponse sanitized score found (req_privacy_level request)),
   svc')
| (Raise e, svc') =>
  (ItemError ("Failed to process: " +:+ exc_str e) (req_text request),
   svc')
end.

Fixpoint batch_loop (requests : list PrivacyRequest)
(results : list BatchItem) (svc : PrivacyService)
: list BatchItem * PrivacyService :=
match requests with
| [] => (results, svc)
| request :: rest =>
  let '(item, svc') := batch_item request svc in
  batch_loop rest (results ++ [item]) svc'
end.

Definition batch_anonymize_text (requests : list PrivacyRequest)
(svc : PrivacyService) : list BatchItem * PrivacyService :=
batch_loop requests [] svc.

Definition get_detected_entities (s : string) (privacy_level : PrivacyLevel)
(svc : PrivacyService) : Response DetectedResponse * PrivacyService :=
match detect_sensitive_entities s privacy_level svc with
| (Ok ents, svc') =>
  (HTTP200
     (mkDetectedResponse s
        ((fun entity =>
            mkDetected (text entity)
              (EntityTypeEnum.value (entity_type entity))
              (confidence entity) (start entity) (end_ entity)
              (replacement entity)) <$> ents)
        (Z.of_nat (length ents))),
   svc')
| (Raise e, svc') => (HTTPError 500, svc')
end.

End Endpoints.
End Endpoints.

(** ** The batch endpoint of [main.py] *)

(** One dictionary of the list ["results"]. *)
Record MainItem := mkMainItem {
  mi_sanitized_text : string;
  mi_privacy_score : Z;
  mi_entities_found : list AuditEntry;
  mi_privacy_level : string;
  mi_error : option string
}.

Module Main.
Section Main.
Context `{Capabilities}.

(** The body of [for text in texts]; [preserve_format] is always
[True] here. *)
Definition batch_item (s : string) (privacy_level : string)
(svc : PrivacyService) : MainItem * PrivacyService :=
match sanitize_text_str s privacy_level true svc with
| (Ok (sanitized, score, found), svc') =>
  (mkMainItem sanitized score found privacy_level None, svc')
| (Raise e, svc') =>
  (mkMainItem s 0 [] privacy_level (Some (exc_str e)), svc')
end.

Fixpoint batch_loop (texts : list string) (privacy_level : string)
(results : list MainItem) (svc : PrivacyService)
: list MainItem * PrivacyService :=
match texts with
| [] => (results, svc)
| s :: rest =>
  let '(item, svc') := batch_item s privacy_level svc in
  batch_loop rest privacy_level (results ++ [item]) svc'
end.

(** An empty [texts] raises the 400 inside the outer [try], whose
handler turns every exception into a 500. *)
Definition batch_anonymize_text (texts : list string)
(privacy_level : string) (svc : PrivacyService)
: Response (list MainItem) * PrivacyService :=
match texts with
| [] => (HTTPError 500, svc)
| _ =>
  let '(results, svc') := batch_loop texts privacy_level [] svc in
  (HTTP200 results, svc')
end.

End Main.
End Main.

(** ** Layouts

    The layout of a string: every decimal digit becomes [D], every other
    character is kept.  A string matches [\d{3}-\d{3}-\d{4}] exactly when
    its layout is [phone_dash_layout]. *)

Inductive LayoutTok :=
  | D
  | C (c : ascii).

#[global] Instance LayoutTok_eq_dec : EqDecision LayoutTok.
Proof. solve_decision. Defined.

Fixpoint layout (s : string) : list LayoutTok :=
  match s with
  | "" => []
  | String c s' => (if PyStr.is_digit c then D else C c) :: layout s'
  end.

Definition phone_dash_layout : list LayoutTok :=
  [D; D; D; C "-"; D; D; D; C "-"; D; D; D; D]%char.

(** [(ddd) ddd-dddd] *)
Definition phone_layout : list LayoutTok :=
  [C "("; D; D; D; C ")"; C " "; D; D; D; C "-"; D; D; D; D]%char.

(** [ddd-dd-dddd] *)
Definition ssn_layout : list LayoutTok :=
  [D; D; D; C "-"; D; D; C "-"; D; D; D; D]%char.

(** [n] more digits in groups of four, the groups separated by [-];
    [k] is the number of digits already in the current group. *)
Fixpoint card_layout_from (k n : nat) : list LayoutTok :=
  match n with
  | O => []
  | S n' =>
      if (k =? 4)%nat then C "-"%char :: D :: card_layout_from 1 n'
      else D :: card_layout_from (S k) n'
  end.

(** [dddd-dddd-...] for [n] digits. *)
Definition card_layout (n : nat) : list LayoutTok := card_layout_from 0 n.

(** The list comprehension of [group4] with [m] groups. *)
Definition chunks (e : string) (m : nat) : list string :=
  List.map (fun i => PyStr.slice e i (i + 4))
    (List.map (fun j => (j * 4)%nat) (seq 0 m)).

(** ** The vault invariant

    Every entry stored under the key of a value holds the token derived
    from that value under the key of the service. *)
Definition vault_consistent `{Capabilities} (svc : PrivacyService) : Prop :=
  ∀ v t tok,
    token_map svc !! vault_key v t = Some tok →
    tok = generate_deterministic_token svc v t.

(** What a call may do to the service: the key stays, the map only
    grows, and either nothing changed or the file holds the map. *)
Definition vault_extends (svc svc' : PrivacyService) : Prop :=
  secret_key svc' = secret_key svc
  ∧ token_map svc ⊆ token_map svc'
  ∧ (svc' = svc ∨ token_file svc' = FileJson (token_map svc')).

(** The map holds the replacement of the span under the key of its value. *)
Definition recorded (svc : PrivacyService) (e : SensitiveSpan) : Prop :=
  token_map svc !! vault_key (text e) (entity_type e) = Some (replacement e).

(** The span was built from an entity of the tagger. *)
Definition from_tagger (ents : list Ent) (e : SensitiveSpan) : Prop :=
  ∃ ent, ent ∈ ents ∧ text e = ent_text ent ∧ start e = start_char ent
         ∧ end_ e = end_char ent ∧ confidence e = 90.

(** The span was built from a match of the pattern of its type. *)
Definition from_pattern `{Capabilities} (s : string) (e : SensitiveSpan)
  : Prop :=
  ∃ m, m ∈ finditer (entity_type e) s ∧ text e = m_group m
       ∧ start e = m_start m ∧ end_ e = m_end m ∧ confidence e = 95.

(** The spans can be spliced from right to left below the bound [B]:
    each lies below the start of the one before it. *)
Fixpoint right_to_left (B : Z) (ents : list SensitiveSpan) : Prop :=
  match ents with
  | [] => True
  | e :: rest => 0 ≤ start e ∧ start e ≤ end_ e ∧ end_ e ≤ B
                 ∧ right_to_left (start e) rest
  end.

(** The sum of [end - start] over the audit entries, and the sum of the
    lengths of their replacements. *)
Definition replaced_length (found : list AuditEntry) : Z :=
  foldr (fun a acc => (a_end a - a_start a) + acc) 0 found.

Definition replacement_length (found : list AuditEntry) : Z :=
  foldr (fun a acc => PyStr.len (a_replacement a) + acc) 0 found.

(** The span lies inside a text of length [n] and is not empty. *)
Definition span_within (n : Z) (e : SensitiveSpan) : Prop :=
  0 ≤ start e ∧ start e < end_ e ∧ end_ e ≤ n.

(** [c2] covers at least the entity types of [c1] and accepts at least
    the confidences [c1] accepts. *)
Definition config_le (c1 c2 : Config) : Prop :=
  (∀ t, t ∈ entities c1 → t ∈ entities c2)
  ∧ confidence_threshold c2 ≤ confidence_threshold c1.

(** ** Sequences of calls

    What can happen to a service between two requests: any number of
    calls of the two methods that touch the vault. *)

Inductive Call :=
  | CallSanitize (s : string) (privacy_level : PrivacyLevel) (preserve_format : bool)
  | CallDetect (s : string) (privacy_level : PrivacyLevel).

Definition run_call `{Capabilities} (c : Call) (svc : PrivacyService)
  : PrivacyService :=
  match c with
  | CallSanitize s l pf => (sanitize_text s l pf svc).2
  | CallDetect s l => (detect_sensitive_entities s l svc).2
  end.

Definition run_calls `{Capabilities} (cs : list Call) (svc : PrivacyService)
  : PrivacyService :=
  fold_left (fun st c => run_call c st) cs svc.

(** ** Concrete capabilities for examples

    A toy keyed digest, a tagger that knows one sentence and refuses long
    texts, and the matches the regular expressions of [self.patterns] have
    on two sample texts. *)

Module Demo.

Definition hex_char (n : N) : ascii :=
  match n with
  | 0%N => "0" | 1%N => "1" | 2%N => "2" | 3%N => "3"
  | 4%N => "4" | 5%N => "5" | 6%N => "6" | 7%N => "7"
  | 8%N => "8" | 9%N => "9" | 10%N => "a" | 11%N => "b"
  | 12%N => "c" | 13%N => "d" | 14%N => "e" | _ => "f"
  end%char.

Fixpoint hex_digits (k : nat) (n : N) : string :=
  match k with
  | O => ""
  | S k' => String (hex_char (n mod 16)) (hex_digits k' (n / 16))
  end.

Fixpoint checksum (s : string) (h : N) : N :=
  match s with
  | "" => h
  | String c s' => checksum s' ((h * 131 + N_of_ascii c) mod 4294967296)%N
  end.

Definition hexdigest (key msg : string) : string :=
  hex_digits 64 (checksum (key +:+ "|" +:+ msg) 7).

Definition sentence : string :=
  "John Doe's email is john@example.com and phone is 555-123-4567".

Definition digits_run : string := "$55512345675559876543".

Definition tagger (s : string) : Result (list Ent) :=
  if (100 <? String.length s)%nat then
    Raise (TaggerError "[E088] Text exceeds maximum length")
  else if bool_decide (s = sentence) then
    Ok [mkEnt "John Doe" 0 8 "PERSON"]
  else Ok [].

Definition matches (t : EntityType) (s : string) : list Match :=
  if bool_decide (s = sentence) then
    match t with
    | EMAIL => [mkMatch "john@example.com" 20 36]
    | PHONE => [mkMatch "555-123-4567" 50 62]
    | _ => []
    end
  else if bool_decide (s = digits_run) then
    match t with
    | PHONE => [mkMatch "5551234567" 1 11; mkMatch "5559876543" 11 21]
    | MONEY => [mkMatch digits_run 0 21]
    | _ => []
    end
  else [].

Definition caps : Capabilities :=
  {| hmac_sha256_hexdigest := hexdigest;
     nlp := Some tagger;
     finditer := matches |}.

Definition caps_regex_only : Capabilities :=
  {| hmac_sha256_hexdigest := hexdigest;
     nlp := None;
     finditer := matches |}.

Definition fresh : PrivacyService := mkService "demo-key" ∅ FileNotFound.

(** A service that ran under the key ["first-key"] and stored one token,
    and the service a later process builds from the file it left behind
    when no key is configured and [secrets.token_hex] draws
    ["second-key"]. *)
Definition first_run : PrivacyService :=
  (@get_or_create_replacement caps "john@example.com" EMAIL
     (mkService "first-key" ∅ FileNotFound)).2.

Definition second_run : Result PrivacyService :=
  init None None "second-key" (token_file first_run).

Definition long_text : string :=
  String.concat "" (repeat "0123456789" 11).

(** A batch of five texts, the third of which the tagger refuses. *)
Definition batch_texts : list string :=
  ["hello"; sentence; long_text; digits_run; "bye"].

Definition batch_requests : list PrivacyRequest :=
  (fun s => mkRequest s STANDARD true) <$> batch_texts.

(** The candidates of the text ["$5551234567"] under [STRICT] when the
    tagger reports the amount without its currency sign: the regular
    expressions give a [MONEY] and a [PHONE] match, the tagger a [MONEY]
    entity. *)
Definition money_regex : SensitiveSpan :=
  mkSpan "$5551234567" 0 11 MONEY 95 "<MONEY:11111111>".
Definition phone_regex : SensitiveSpan :=
  mkSpan "5551234567" 1 11 PHONE 95 "<PHONE:22222222>".
Definition money_model : SensitiveSpan :=
  mkSpan "5551234567" 1 11 MONEY 90 "<MONEY:33333333>".

Definition sample_spans : list SensitiveSpan :=
  [mkSpan "John Doe" 0 8 PERSON 90 "<PERSON:2bb9dc2b>";
   mkSpan "555-123-4567" 50 62 PHONE 95 "<PHONE:531b2900>";
   mkSpan "123-4567" 54 62 SSN 95 "<SSN:00000000>";
   mkSpan "john@example.com" 20 36 EMAIL 95 "<EMAIL:ab0157dd>"].

End Demo.

(** ** Statistics and the token file *)

(** The dictionary [get_stats] returns. *)
Record Stats := mkStats {
  total_tokens_mapped : nat;
  privacy_levels_supported : list PrivacyLevel;
  entity_types_detected : list EntityType;
  spacy_model_loaded : bool;
  service_status : string
}.

Definition get_stats `{Capabilities} (svc : PrivacyService) : Stats :=
  mkStats (size (token_map svc)) PrivacyLevelEnum.members
    EntityTypeEnum.members (bool_decide (is_Some nlp)) "healthy".

(** The map of the service is what a fresh [load_token_map] would read:
    the file holds the map, or there is no file and the map is empty. *)
Definition file_in_sync (svc : PrivacyService) : Prop :=
  token_file svc = FileJson (token_map svc)
  ∨ (token_file svc = FileNotFound ∧ token_map svc = ∅).

(** Two services with the same key and consistent vaults go through a
    loop in step: same list, and both vaults stay consistent. *)
Definition in_step `{Capabilities} (svc svc2 : PrivacyService) : Prop :=
  secret_key svc = secret_key svc2
  ∧ vault_consistent svc ∧ vault_consistent svc2.

(** ** When the cipher applies *)

(** The guard of the branch of [apply_format_preserving_encryption] for
    the entity type: the digit count fits. *)
Definition cipher_applies (t : EntityType) (s : string) : bool :=
  match t with
  | PHONE => (String.length (digits_of s) =? 10)%nat
  | CREDIT_CARD => (13 <=? String.length (digits_of s))%nat
  | SSN => (String.length (digits_of s) =? 9)%nat
  | _ => false
  end.


(** ** The text a result stands for *)

(** [s[a:b]] for offsets [0 <= a <= b]. *)
Definition between (s : string) (a b : Z) : string :=
  PyStr.take (Z.to_nat (b - a)) (PyStr.drop (Z.to_nat a) s).

(** The text below [B] with the spans of the audit entries, listed from
    right to left, exchanged for their replacements: what lies left of
    the last entry, then for each entry its replacement and the original
    text up to the next entry. *)
Fixpoint rebuilt (s : string) (B : Z) (found : list AuditEntry) : string :=
  match found with
  | [] => PyStr.take (Z.to_nat B) s
  | a :: rest =>
      rebuilt s (a_start a) rest +:+ a_replacement a
        +:+ between s (a_end a) B
  end.

(** ** [main.py]: the single-text endpoint and the labelling endpoints *)

(** What the body of an endpoint of [main.py] can raise: an
    [HTTPException] of its own, or any other exception. *)
Inductive Raised :=
  | RaiseHTTP (status : Z) (detail : string)
  | RaiseOther (e : Exception).

(** [except Exception as e: raise HTTPException(status_code=500, ...)]:
    the handler that closes the endpoints catches [HTTPException] too. *)
Definition handler_500 {A} (r : Raised + A) : Response A :=
  match r with
  | inl _ => HTTPError 500
  | inr a => HTTP200 a
  end.

(** The JSON object [/anonymize] receives, as far as it is read. *)
Record AnonymizeRequest := mkAnonymizeRequest {
  ar_text : option string;
  ar_privacy_level : option string
}.


(** The dictionary the two labelling functions return; [confidence]
    in hundredths. *)
Record LabelResult := mkLabelResult {
  lr_label : string;
  lr_category : string;
  lr_confidence : Z;
  lr_reasoning : string
}.

(** [p] is a prefix of [s]. *)
Fixpoint str_prefix (p s : string) : bool :=
  match p, s with
  | "", _ => true
  | String _ _, "" => false
  | String a p', String b s' => bool_decide (a = b) && str_prefix p' s'
  end.

(** [w in s] *)
Fixpoint str_contains (w s : string) : bool :=
  str_prefix w s
  || match s with
     | "" => false
     | String _ s' => str_contains w s'
     end.

(** The list [CATEGORIES]: the literals of its second line have no commas
    between them, so Python joins them into one string. *)
Definition CATEGORIES : list string :=
  ["Harmful Content";
   "Instruction Following" +:+ "Relevance" +:+ "Hallucination";
   "Reasoning Errors";
   "Creativity Weakness";
   "Alignment Issues";
   "Context Failures"].

(** [any(word in payload_lower for word in words)] *)
Definition any_word (words : list string) (payload_lower : string) : bool :=
  existsb (fun word => str_contains word payload_lower) words.

Definition generate_fallback_label (payload : string) : LabelResult :=
  let payload_lower := PyStr.lower payload in
  let '(category, label) :=
    if any_word ["hate"; "violence"; "harmful"; "toxic"; "offensive"]
         payload_lower
    then ("Harmful Content", "Harmful Content")
    else if any_word ["wrong"; "incorrect"; "false"; "mistake"; "error"]
              payload_lower
    then ("Hallucination", "Factual Error")
    else if any_word ["boring"; "generic"; "repetitive"; "unoriginal"]
              payload_lower
    then ("Creativity Weakness", "Lack of Creativity")
    else if any_word ["confused"; "misunderstood"; "context"; "lost"]
              payload_lower
    then ("Context Failures", "Context Issue")
    else if any_word ["reasoning"; "logic"; "calculate"; "math"]
              payload_lower
    then ("Reasoning Errors", "Reasoning Error")
    else if any_word ["instruction"; "format"; "follow"; "comply"]
              payload_lower
    then ("Alignment Issues", "Alignment Issue")
    else ("General", "AI Interaction") in
  mkLabelResult label category 60 "Fallback heuristic classification".



Module MainApp.
Section MainApp.
Context `{Capabilities}.

(** [generate_label_with_ai]: the call of the language model and the
    reading of its answer are external; the function catches every
    exception and falls back to the heuristic, so it always returns. *)
Variable generate_label_with_ai : string -> LabelResult.

Definition anonymize_body (request : AnonymizeRequest) (svc : PrivacyService)
  : (Raised + MainItem) * PrivacyService :=
  let text := default "" (ar_text request) in
  let privacy_level := default "standard" (ar_privacy_level request) in
  if bool_decide (text = "") then
    (inl (RaiseHTTP 400 "Text is required"), svc)
  else
    match sanitize_text_str text privacy_level true svc with
    | (Ok (sanitized, score, found), svc') =>
        (inr (mkMainItem sanitized score found privacy_level None), svc')
    | (Raise e, svc') => (inl (RaiseOther e), svc')
    end.

Definition anonymize_text (request : AnonymizeRequest) (svc : PrivacyService)
  : Response MainItem * PrivacyService :=
  let '(r, svc') := anonymize_body request svc in (handler_500 r, svc').




End MainApp.
End MainApp.

(** * Properties *)

(** ** The span resolver *)

Section Resolver.


Lemma overlaps_spec a b : overlaps a b = true ↔ span_overlap a b.
Proof.
  unfold overlaps, span_overlap.
  rewrite andb_true_iff, Z.ltb_lt, Z.gtb_ltb, Z.ltb_lt. tauto.
Qed.

Lemma span_overlap_sym a b : span_overlap a b → span_overlap b a.
Proof. unfold span_overlap. tauto. Qed.

Lemma existsb_overlaps_false entity filtered :
  existsb (overlaps entity) filtered = false →
  ∀ added, added ∈ filtered → ¬ span_overlap entity added.
Proof.
  intros Hex added Hin Hov.
  apply overlaps_spec in Hov.
  assert (existsb (overlaps entity) filtered = true) as Htrue.
  { apply existsb_exists. exists added. split; [|done].
    by apply list_elem_of_In. }
  congruence.
Qed.

Lemma existsb_overlaps_true entity filtered :
  existsb (overlaps entity) filtered = true →
  ∃ added, added ∈ filtered ∧ span_overlap entity added.
Proof.
  intros (added & Hin & Hov)%existsb_exists.
  exists added. split; [by apply list_elem_of_In | by apply overlaps_spec].
Qed.

Lemma pairwise_disjoint_nil : pairwise_disjoint [].
Proof. intros i j a b _ Hi. by rewrite lookup_nil in Hi. Qed.

Lemma pairwise_disjoint_snoc l x :
  pairwise_disjoint l →
  (∀ y, y ∈ l → ¬ span_overlap x y) →
  pairwise_disjoint (l ++ [x]).
Proof.
  intros Hl Hx i j a b Hij Hi Hj.
  destruct (decide (j < length l)%nat) as [Hjl | Hjl].
  - rewrite lookup_app_l in Hi by lia.
    rewrite lookup_app_l in Hj by lia.
    exact (Hl i j a b Hij Hi Hj).
  - rewrite lookup_app_l in Hi.
    2:{ apply lookup_lt_Some in Hj. rewrite length_app in Hj. simpl in Hj. lia. }
    rewrite lookup_app_r in Hj by lia.
    apply list_lookup_singleton_Some in Hj as [_ <-].
    intros Hov. eapply Hx; [|by apply span_overlap_sym].
    by eapply list_elem_of_lookup_2.
Qed.

Lemma resolver_loop_disjoint ents filtered :
  pairwise_disjoint filtered →
  pairwise_disjoint (resolver_loop ents filtered).
Proof.
  revert filtered.
  induction ents as [|entity rest IH]; intros filtered Hf; simpl; [done|].
  destruct (existsb (overlaps entity) filtered) eqn:Hex.
  - by apply IH.
  - apply IH, pairwise_disjoint_snoc; [done|].
    by apply existsb_overlaps_false.
Qed.

(** The loop only ever appends. *)
Lemma resolver_loop_prefix ents filtered :
  ∃ more, resolver_loop ents filtered = filtered ++ more.
Proof.
  revert filtered.
  induction ents as [|entity rest IH]; intros filtered; simpl.
  - exists []. by rewrite app_nil_r.
  - destruct (existsb (overlaps entity) filtered).
    + apply IH.
    + destruct (IH (filtered ++ [entity])) as [more ->].
      exists (entity :: more). by rewrite <- app_assoc.
Qed.

Lemma resolver_loop_subset ents filtered x :
  x ∈ resolver_loop ents filtered → x ∈ filtered ∨ x ∈ ents.
Proof.
  revert filtered.
  induction ents as [|entity rest IH]; intros filtered; simpl; [by left|].
  destruct (existsb (overlaps entity) filtered).
  - intros [?|?]%IH; [by left | right; by right].
  - intros [[?| ->%list_elem_of_singleton]%elem_of_app|?]%IH.
    + by left.
    + right. by left.
    + right. by right.
Qed.

End Resolver.

(** ** The stable sort *)

Section StableSortFacts.
Context {A : Type} (ltb : A → A → bool).
Hypothesis ltb_asym : ∀ x y, ltb x y = true → ltb y x = false.
Hypothesis ltb_negtrans :
  ∀ x y z, ltb y x = false → ltb z y = false → ltb z x = false.


Lemma insert_stable_perm x l : insert_stable ltb x l ≡ₚ x :: l.
Proof.
  induction l as [|y l IH]; simpl; [done|].
  destruct (ltb y x); [|done].
  rewrite IH. apply Permutation_swap.
Qed.

Lemma stable_sort_perm l : stable_sort ltb l ≡ₚ l.
Proof.
  induction l as [|x l IH]; simpl; [done|].
  rewrite insert_stable_perm. by f_equiv.
Qed.

Lemma stable_sort_elem_of x l : x ∈ stable_sort ltb l ↔ x ∈ l.
Proof. by rewrite stable_sort_perm. Qed.

Lemma stable_sort_length l : length (stable_sort ltb l) = length l.
Proof. by rewrite stable_sort_perm. Qed.

Lemma insert_stable_sorted x l :
  StronglySorted (not_after ltb) l → StronglySorted (not_after ltb) (insert_stable ltb x l).
Proof.
  induction 1 as [|y l Hl IH Hy]; simpl.
  - repeat constructor.
  - destruct (ltb y x) eqn:Hyx.
    + constructor; [done|].
      apply Forall_forall. intros z Hz.
      rewrite insert_stable_perm in Hz.
      apply elem_of_cons in Hz as [-> | Hz].
      * by apply ltb_asym.
      * rewrite Forall_forall in Hy. by apply Hy.
    + constructor; [by constructor|].
      constructor; [done|].
      eapply Forall_impl; [exact Hy|].
      intros z Hz. unfold not_after in *. by eapply ltb_negtrans.
Qed.

Lemma stable_sort_sorted l : StronglySorted (not_after ltb) (stable_sort ltb l).
Proof.
  induction l as [|x l IH]; simpl; [constructor|].
  by apply insert_stable_sorted.
Qed.

(** In the sorted list, whatever stands before [x] is not after it. *)
Lemma stable_sort_before l l1 x l2 y :
  stable_sort ltb l = l1 ++ x :: l2 → y ∈ l1 → not_after ltb y x.
Proof.
  intros Heq Hy.
  pose proof (stable_sort_sorted l) as Hs. rewrite Heq in Hs.
  eapply StronglySorted_app_1_elem_of; [exact Hs | done | by left].
Qed.

(** Whatever is strictly smaller than [x] stands before every occurrence
    of [x]. *)
Lemma stable_sort_smaller_before l l1 x l2 y :
  stable_sort ltb l = l1 ++ x :: l2 → y ∈ l → ltb y x = true → y ∈ l1.
Proof.
  intros Heq Hy Hlt.
  pose proof (stable_sort_sorted l) as Hs. rewrite Heq in Hs.
  apply stable_sort_elem_of in Hy. rewrite Heq in Hy.
  apply elem_of_app in Hy as [Hy | Hy]; [done|].
  pose proof (StronglySorted_app_1_r _ _ _ Hs) as Hs2.
  apply elem_of_cons in Hy as [-> | Hy].
  - apply ltb_asym in Hlt as Hlt'. congruence.
  - apply StronglySorted_inv in Hs2 as [_ Hall].
    rewrite Forall_forall in Hall.
    apply Hall in Hy. unfold not_after in Hy. congruence.
Qed.

End StableSortFacts.

(** ** The resolver on the sorted list *)

Section ResolverOrder.


Lemma resolver_ltb_spec a c : resolver_ltb a c = true ↔ sorts_after a c.
Proof.
  unfold resolver_ltb, tuple_ltb, resolver_key, sorts_after. simpl.
  destruct (Z.eqb_spec (start a) (start c)) as [Heq | Hne].
  - rewrite Z.ltb_lt. lia.
  - rewrite Z.ltb_lt. lia.
Qed.

Lemma resolver_ltb_false a c :
  resolver_ltb a c = false ↔ ¬ sorts_after a c.
Proof.
  rewrite <- resolver_ltb_spec. destruct (resolver_ltb a c); naive_solver.
Qed.

Lemma resolver_ltb_asym a c :
  resolver_ltb a c = true → resolver_ltb c a = false.
Proof.
  rewrite resolver_ltb_spec, resolver_ltb_false. unfold sorts_after. lia.
Qed.

Lemma resolver_ltb_negtrans a b c :
  resolver_ltb b a = false → resolver_ltb c b = false →
  resolver_ltb c a = false.
Proof.
  rewrite !resolver_ltb_false. unfold sorts_after. lia.
Qed.

Lemma remove_overlapping_unfold ents :
  _remove_overlapping_entities ents
  = resolver_loop (stable_sort resolver_ltb ents) [].
Proof. by destruct ents. Qed.

Lemma resolver_loop_app l1 l2 filtered :
  resolver_loop (l1 ++ l2) filtered
  = resolver_loop l2 (resolver_loop l1 filtered).
Proof.
  revert filtered. induction l1 as [|x l1 IH]; intros filtered; simpl; [done|].
  by destruct (existsb (overlaps x) filtered).
Qed.

(** Where an element of the result comes from. *)
Lemma resolver_loop_origin ents filtered x :
  x ∈ resolver_loop ents filtered →
  x ∈ filtered ∨
  ∃ l1 l2, ents = l1 ++ x :: l2 ∧
           existsb (overlaps x) (resolver_loop l1 filtered) = false.
Proof.
  revert filtered.
  induction ents as [|e rest IH]; intros filtered; simpl; [by left|].
  destruct (existsb (overlaps e) filtered) eqn:Hex; intros Hx.
  - apply IH in Hx as [Hx | (l1 & l2 & -> & Hno)]; [by left|].
    right. exists (e :: l1), l2. split; [done|]. simpl. by rewrite Hex.
  - apply IH in Hx as [Hx | (l1 & l2 & -> & Hno)].
    + apply elem_of_app in Hx as [Hx | ->%list_elem_of_singleton]; [by left|].
      right. by exists [], rest.
    + right. exists (e :: l1), l2. split; [done|]. simpl. by rewrite Hex.
Qed.

(** What happens to the element at a given position of the input. *)
Lemma resolver_loop_at l1 x l2 filtered :
  x ∈ resolver_loop (l1 ++ x :: l2) filtered ∨
  ∃ y, y ∈ resolver_loop l1 filtered ∧ span_overlap x y.
Proof.
  rewrite resolver_loop_app. simpl.
  destruct (existsb (overlaps x) (resolver_loop l1 filtered)) eqn:Hex.
  - right. by apply existsb_overlaps_true.
  - left.
    destruct (resolver_loop_prefix l2 (resolver_loop l1 filtered ++ [x]))
      as [more ->].
    set_solver.
Qed.

Lemma resolver_loop_keeps l1 l2 filtered y :
  y ∈ resolver_loop l1 filtered → y ∈ resolver_loop (l1 ++ l2) filtered.
Proof.
  intros Hy. rewrite resolver_loop_app.
  destruct (resolver_loop_prefix l2 (resolver_loop l1 filtered)) as [more ->].
  set_solver.
Qed.

Lemma remove_overlapping_subset ents x :
  x ∈ _remove_overlapping_entities ents → x ∈ ents.
Proof.
  rewrite remove_overlapping_unfold.
  intros [Hx | Hx]%resolver_loop_subset; [by apply elem_of_nil in Hx|].
  by apply stable_sort_elem_of in Hx.
Qed.

Lemma remove_overlapping_disjoint ents :
  pairwise_disjoint (_remove_overlapping_entities ents).
Proof.
  rewrite remove_overlapping_unfold.
  apply resolver_loop_disjoint, pairwise_disjoint_nil.
Qed.

End ResolverOrder.

(** C2: whatever list of candidate spans the resolver is given, no two
    spans [a], [b] standing at different positions of its result satisfy
    [a.start < b.end and b.start < a.end]. *)
Theorem resolver_non_overlap (ents : list SensitiveSpan) (i j : nat)
    (a b : SensitiveSpan) :
  i ≠ j →
  _remove_overlapping_entities ents !! i = Some a →
  _remove_overlapping_entities ents !! j = Some b →
  ¬ (start a < end_ b ∧ start b < end_ a).
Proof.
  intros Hij Hi Hj.
  pose proof (remove_overlapping_disjoint ents) as Hd.
  destruct (decide (i < j)%nat) as [Hlt | Hge].
  - exact (Hd i j a b Hlt Hi Hj).
  - intros Hov. apply (Hd j i b a); [lia | done | done |].
    by apply span_overlap_sym.
Qed.


Lemma resolver_non_overlap_witness :
  ¬ (start (mkSpan "John Doe" 0 8 PERSON 90 "<PERSON:2bb9dc2b>")
       < end_ (mkSpan "555-123-4567" 50 62 PHONE 95 "<PHONE:531b2900>")
     ∧ start (mkSpan "555-123-4567" 50 62 PHONE 95 "<PHONE:531b2900>")
       < end_ (mkSpan "John Doe" 0 8 PERSON 90 "<PERSON:2bb9dc2b>")).
Proof.
  apply (resolver_non_overlap Demo.sample_spans 0 2); [lia | reflexivity | reflexivity].
Defined.

Lemma StronglySorted_weaken {A} (R1 R2 : A → A → Prop) (l : list A) :
  (∀ x y, R1 x y → R2 x y) → StronglySorted R1 l → StronglySorted R2 l.
Proof.
  intros Himp. induction 1 as [|x l Hl IH Hx]; constructor; [done|].
  eapply Forall_impl; [exact Hx | auto].
Qed.

(** The sort of the resolver puts earlier starts first and, among equal
    starts, higher confidences first. *)
Lemma resolver_sort_order ents :
  StronglySorted
    (λ x y, start x < start y ∨ (start x = start y ∧ confidence y ≤ confidence x))
    (stable_sort resolver_ltb ents).
Proof.
  eapply StronglySorted_weaken;
    [|apply stable_sort_sorted;
      [apply resolver_ltb_asym | intros x y z; apply resolver_ltb_negtrans]].
  intros x y Hxy. unfold not_after in Hxy.
  apply resolver_ltb_false in Hxy. unfold sorts_after in Hxy. lia.
Qed.

Lemma resolver_before_not_after ents l1 x l2 y :
  stable_sort resolver_ltb ents = l1 ++ x :: l2 → y ∈ l1 →
  ¬ sorts_after x y.
Proof.
  intros Heq Hy. apply resolver_ltb_false.
  eapply (stable_sort_before resolver_ltb); eauto using resolver_ltb_asym.
  intros ???. apply resolver_ltb_negtrans.
Qed.

Lemma resolver_pair a b :
  start a = start b → confidence b < confidence a → span_overlap a b →
  _remove_overlapping_entities [a; b] = [a]
  ∧ _remove_overlapping_entities [b; a] = [a].
Proof.
  intros Hs Hc Hov.
  assert (resolver_ltb a b = true) as Hab
    by (apply resolver_ltb_spec; right; done).
  assert (resolver_ltb b a = false) as Hba by by apply resolver_ltb_asym.
  assert (overlaps b a = true) as Hov'
    by by apply overlaps_spec, span_overlap_sym.
  rewrite !remove_overlapping_unfold. unfold stable_sort.
  cbn [foldr insert_stable]. rewrite Hab, Hba.
  cbn [resolver_loop existsb app orb]. rewrite Hov'. by cbn.
Qed.

(** C5, as the code has it: the sort is by ascending start and, among
    equal starts, by descending confidence.  Of two overlapping candidates
    with the same start, one of confidence 0.95 and one of confidence 0.9,
    the 0.9 span is always discarded; the 0.95 span is retained whenever
    every other candidate that overlaps it comes after it in the sorted
    order, in particular when the two spans are the only candidates. *)
Theorem resolver_tie_break (ents : list SensitiveSpan) (a b : SensitiveSpan) :
  a ∈ ents → b ∈ ents →
  start a = start b → confidence a = 95 → confidence b = 90 →
  span_overlap a b →
  StronglySorted
    (λ x y, start x < start y ∨ (start x = start y ∧ confidence y ≤ confidence x))
    (stable_sort (fun x y => tuple_ltb (resolver_key x) (resolver_key y)) ents)
  ∧ (b ∉ _remove_overlapping_entities ents)
  ∧ ((∀ c, c ∈ ents → span_overlap c a → c = a ∨ sorts_after a c) →
     a ∈ _remove_overlapping_entities ents)
  ∧ (ents = [a; b] ∨ ents = [b; a] → _remove_overlapping_entities ents = [a]).
Proof.
  intros Ha Hb Hs Hca Hcb Hov.
  assert (resolver_ltb a b = true) as Hab
    by (apply resolver_ltb_spec; right; lia).
  split; [apply resolver_sort_order|]. split; [|split].
  - rewrite remove_overlapping_unfold.
    intros [Hnil | (l1 & l2 & Heq & Hno)]%resolver_loop_origin;
      [by apply elem_of_nil in Hnil|].
    assert (a ∈ l1) as Hal1.
    { eapply (stable_sort_smaller_before resolver_ltb); eauto.
      - apply resolver_ltb_asym.
      - intros ???. apply resolver_ltb_negtrans. }
    apply list_elem_of_split in Hal1 as (k1 & k2 & ->).
    destruct (resolver_loop_at k1 a k2 []) as [Hin | (y & Hy & Hay)].
    + eapply existsb_overlaps_false; [exact Hno | exact Hin |].
      by apply span_overlap_sym.
    + assert (¬ sorts_after a y) as Hord.
      { eapply (resolver_before_not_after ents k1 a (k2 ++ b :: l2)).
        - by rewrite Heq, <- app_assoc.
        - apply resolver_loop_subset in Hy as [Hy | Hy]; [|done].
          by apply elem_of_nil in Hy. }
      eapply existsb_overlaps_false;
        [exact Hno | by apply (resolver_loop_keeps k1 (a :: k2)) |].
      unfold span_overlap, sorts_after in *. lia.
  - intros Hall. rewrite remove_overlapping_unfold.
    assert (a ∈ stable_sort resolver_ltb ents) as Hin
      by by apply stable_sort_elem_of.
    apply list_elem_of_split in Hin as (l1 & l2 & Heq). rewrite Heq.
    destruct (resolver_loop_at l1 a l2 []) as [Hin | (y & Hy & Hay)]; [done|].
    assert (y ∈ l1) as Hyl1.
    { apply resolver_loop_subset in Hy as [Hy | Hy]; [|done].
      by apply elem_of_nil in Hy. }
    assert (y ∈ ents) as Hyents.
    { apply (stable_sort_elem_of resolver_ltb). rewrite Heq. set_solver. }
    destruct (Hall y Hyents (span_overlap_sym _ _ Hay)) as [-> | Hafter].
    + by apply resolver_loop_keeps.
    + by destruct (resolver_before_not_after ents l1 a l2 y Heq Hyl1).
  - assert (confidence b < confidence a) as Hc by lia.
    destruct (resolver_pair a b Hs Hc Hov) as [H1 H2].
    by intros [-> | ->].
Qed.

Lemma resolver_tie_break_witness :
  Demo.phone_regex
    ∈ _remove_overlapping_entities [Demo.money_model; Demo.phone_regex]
  ∧ _remove_overlapping_entities [Demo.money_model; Demo.phone_regex]
    = [Demo.phone_regex].
Proof.
  pose proof (resolver_tie_break [Demo.money_model; Demo.phone_regex]
                Demo.phone_regex Demo.money_model) as Hw.
  destruct Hw as (_ & _ & Hkept & Hpair).
  - set_solver.
  - set_solver.
  - reflexivity.
  - reflexivity.
  - reflexivity.
  - unfold span_overlap. simpl. lia.
  - split; [apply Hkept | apply Hpair; by right].
    intros c Hc Hov. apply elem_of_cons in Hc as [-> | Hc].
    + right. right. simpl. lia.
    + left. by apply list_elem_of_singleton in Hc.
Defined.

(** C5 as it is written fails: with the three candidates of
    ["$5551234567"], the 0.95 span and the 0.9 span start together and
    overlap, and neither is retained, because an earlier span overlaps
    both. *)
Lemma resolver_tie_break_counterexample :
  let ents := [Demo.phone_regex; Demo.money_regex; Demo.money_model] in
  Demo.phone_regex ∈ ents ∧ Demo.money_model ∈ ents
  ∧ start Demo.phone_regex = start Demo.money_model
  ∧ confidence Demo.phone_regex = 95 ∧ confidence Demo.money_model = 90
  ∧ span_overlap Demo.phone_regex Demo.money_model
  ∧ _remove_overlapping_entities ents = [Demo.money_regex]
  ∧ Demo.phone_regex ∉ _remove_overlapping_entities ents.
Proof.
  assert (_remove_overlapping_entities
            [Demo.phone_regex; Demo.money_regex; Demo.money_model]
          = [Demo.money_regex]) as Hout by reflexivity.
  cbv zeta. rewrite Hout.
  split; [set_solver|]. split; [set_solver|].
  split; [reflexivity|]. split; [reflexivity|]. split; [reflexivity|].
  split; [unfold span_overlap; simpl; lia|]. split; [reflexivity|].
  intros Hin. apply list_elem_of_singleton in Hin. discriminate Hin.
Qed.

(** ** Strings *)

Module PyStrFacts.
Import PyStr.

Lemma app_cons c s t : String c s +:+ t = String c (s +:+ t).
Proof. reflexivity. Qed.

Lemma app_empty_l s : "" +:+ s = s.
Proof. reflexivity. Qed.

Lemma app_empty_r s : s +:+ "" = s.
Proof. induction s as [|c s IH]; [done|]. by rewrite app_cons, IH. Qed.

Lemma app_assoc s t u : (s +:+ t) +:+ u = s +:+ (t +:+ u).
Proof. induction s as [|c s IH]; [done|]. by rewrite !app_cons, IH. Qed.

Lemma length_app s t :
  String.length (s +:+ t) = (String.length s + String.length t)%nat.
Proof. induction s as [|c s IH]; [done|]. rewrite app_cons. simpl. by rewrite IH. Qed.

Lemma length_take n s : String.length (take n s) = (n `min` String.length s)%nat.
Proof.
  revert s. induction n as [|n IH]; intros [|c s]; simpl; try done.
  by rewrite IH.
Qed.

Lemma length_drop n s : String.length (drop n s) = (String.length s - n)%nat.
Proof. revert s. induction n as [|n IH]; intros [|c s]; simpl; try done. Qed.

Lemma take_drop n s : take n s +:+ drop n s = s.
Proof.
  revert s. induction n as [|n IH]; intros [|c s]; simpl; try done.
  by rewrite app_cons, IH.
Qed.

Lemma drop_drop n m s : drop n (drop m s) = drop (m + n) s.
Proof.
  revert s. induction m as [|m IH]; intros s; simpl; [done|].
  destruct s as [|c s]; [by destruct n|]. apply IH.
Qed.

Lemma take_all n s : (String.length s ≤ n)%nat → take n s = s.
Proof.
  revert s. induction n as [|n IH]; intros [|c s] Hn; simpl in *; try done.
  - lia.
  - rewrite IH; [done | lia].
Qed.

Lemma length_map f s : String.length (map f s) = String.length s.
Proof. induction s as [|c s IH]; simpl; [done | by rewrite IH]. Qed.

Lemma forallb_app p s t :
  forallb p (s +:+ t) = forallb p s && forallb p t.
Proof.
  induction s as [|c s IH]; [done|]. rewrite app_cons. simpl.
  by rewrite IH, andb_assoc.
Qed.

Lemma forallb_take p n s : forallb p s = true → forallb p (take n s) = true.
Proof.
  revert s. induction n as [|n IH]; intros [|c s]; simpl; try done.
  intros [-> Hs]%andb_true_iff. simpl. by apply IH.
Qed.

Lemma forallb_drop p n s : forallb p s = true → forallb p (drop n s) = true.
Proof.
  revert s. induction n as [|n IH]; intros [|c s]; simpl; try done.
  intros [_ Hs]%andb_true_iff. by apply IH.
Qed.


Lemma forallb_map p f s :
  (∀ c, p (f c) = true) → forallb p (map f s) = true.
Proof.
  intros Hf. induction s as [|c s IH]; simpl; [done|]. by rewrite Hf, IH.
Qed.

Lemma filter_app p s t : filter p (s +:+ t) = filter p s +:+ filter p t.
Proof.
  induction s as [|c s IH]; [done|]. rewrite app_cons. simpl.
  destruct (p c); by rewrite ?app_cons, IH.
Qed.

Lemma filter_all p s : forallb p s = true → filter p s = s.
Proof.
  induction s as [|c s IH]; simpl; [done|].
  intros [-> Hs]%andb_true_iff. by rewrite IH.
Qed.

Lemma slice_spec s a b : slice s a b = take (b - a) (drop a s).
Proof. reflexivity. Qed.

(** [s[a:b] + s[b:] = s[a:]] *)
Lemma slice_drop s a b : (a ≤ b)%nat → slice s a b +:+ drop b s = drop a s.
Proof.
  intros Hab. unfold slice.
  replace b with (a + (b - a))%nat at 2 by lia.
  rewrite <- drop_drop. apply take_drop.
Qed.

End PyStrFacts.

(** ** The format-preserving substitution *)

Section Substitution.
Import PyStr PyStrFacts.

Lemma shift_digit_is_digit k d : is_digit (shift_digit k d) = true.
Proof.
  unfold is_digit, shift_digit.
  pose proof (Nat.mod_upper_bound (nat_of_ascii d - 48 + k) 10) as Hm.
  rewrite nat_ascii_embedding by lia.
  apply andb_true_iff. split; apply Nat.leb_le; lia.
Qed.


Lemma shifted_all_digits k s : forallb is_digit (map (shift_digit k) s) = true.
Proof. apply forallb_map. intros c. apply shift_digit_is_digit. Qed.

Lemma layout_app s t : layout (s +:+ t) = layout s ++ layout t.
Proof.
  induction s as [|c s IH]; [done|]. rewrite app_cons. simpl. by rewrite IH.
Qed.

Lemma layout_digits s :
  forallb is_digit s = true → layout s = repeat D (String.length s).
Proof.
  induction s as [|c s IH]; simpl; [done|].
  intros [-> Hs]%andb_true_iff. by rewrite IH.
Qed.

Lemma digits_of_app s t : digits_of (s +:+ t) = digits_of s +:+ digits_of t.
Proof. apply filter_app. Qed.

Lemma digits_of_digits s : forallb is_digit s = true → digits_of s = s.
Proof. apply filter_all. Qed.

Lemma group4_chunks e :
  group4 e = join "-" (chunks e ((String.length e + 3) / 4)).
Proof.
  unfold group4, chunks, range_step.
  by replace (String.length e + 4 - 1)%nat with (String.length e + 3)%nat by lia.
Qed.

Lemma chunks_S e m : chunks e (S m) = take 4 e :: chunks (drop 4 e) m.
Proof.
  unfold chunks. change (seq 0 (S m)) with (0%nat :: seq 1 m).
  rewrite <- seq_shift. cbn [List.map]. f_equal.
  rewrite !List.map_map.
  apply List.map_ext. intros j. unfold slice.
  rewrite drop_drop.
  replace (S j * 4 + 4 - S j * 4)%nat with (j * 4 + 4 - j * 4)%nat by lia.
  by replace (S j * 4)%nat with (4 + j * 4)%nat by lia.
Qed.

Lemma join_cons_cons sep p q rest :
  join sep (p :: q :: rest) = p +:+ sep +:+ join sep (q :: rest).
Proof. reflexivity. Qed.

Lemma chunks_grouped m : ∀ e,
  forallb is_digit e = true →
  (String.length e ≤ 4 * m)%nat →
  (4 * m < String.length e + 4)%nat →
  layout (join "-" (chunks e m)) = card_layout (String.length e)
  ∧ digits_of (join "-" (chunks e m)) = e.
Proof.
  induction m as [|m IH]; intros e He Hup Hlo.
  - assert (String.length e = 0%nat) as Hlen by lia.
    destruct e; [done | simpl in Hlen; lia].
  - rewrite chunks_S. destruct m as [|m].
    + change (chunks (drop 4 e) 0) with (@nil string). cbn [join].
      rewrite take_all by lia. split; [|by apply digits_of_digits].
      rewrite layout_digits by done.
      destruct (String.length e) as [|[|[|[|[|n]]]]] eqn:Hn; try done; lia.
    + rewrite chunks_S, join_cons_cons, <- chunks_S.
      pose proof (length_drop 4 e) as Hld.
      destruct (IH (drop 4 e)) as [IHl IHd];
        [by apply forallb_drop | lia | lia |].
      rewrite !layout_app, !digits_of_app, IHl, IHd.
      rewrite (digits_of_digits (take 4 e)) by by apply forallb_take.
      rewrite (layout_digits (take 4 e)) by by apply forallb_take.
      rewrite length_take, Hld. split; [|apply take_drop].
      destruct (String.length e) as [|[|[|[|[|n]]]]] eqn:Hn; try lia.
      replace (S (S (S (S (S n)))) - 4)%nat with (S n) by lia.
      reflexivity.
Qed.

Lemma group4_grouped e :
  forallb is_digit e = true →
  layout (group4 e) = card_layout (String.length e)
  ∧ digits_of (group4 e) = e.
Proof.
  intros He. rewrite group4_chunks.
  pose proof (Nat.div_mod_eq (String.length e + 3) 4) as Hdm.
  pose proof (Nat.mod_upper_bound (String.length e + 3) 4) as Hmb.
  apply chunks_grouped; [done | lia | lia].
Qed.

End Substitution.

Section SubstitutionLayout.
Context `{Capabilities}.
Import PyStr PyStrFacts.

Lemma fpe_phone svc s :
  String.length (digits_of s) = 10%nat →
  layout (apply_format_preserving_encryption svc s PHONE) = phone_layout
  ∧ digits_of (apply_format_preserving_encryption svc s PHONE)
    = map (shift_digit 3) (digits_of s).
Proof.
  intros Hlen. unfold apply_format_preserving_encryption.
  rewrite Hlen. cbn [Nat.eqb].
  set (e := map (shift_digit 3) (digits_of s)).
  assert (forallb is_digit e = true) as He by apply shifted_all_digits.
  assert (String.length e = 10%nat) as Hle
    by (unfold e; by rewrite length_map).
  assert (forallb is_digit (take 3 e) = true) as H1 by by apply forallb_take.
  assert (forallb is_digit (slice e 3 6) = true) as H2
    by by apply forallb_take, forallb_drop.
  assert (forallb is_digit (drop 6 e) = true) as H3 by by apply forallb_drop.
  split.
  - rewrite !layout_app. rewrite (layout_digits _ H1), (layout_digits _ H2),
      (layout_digits _ H3).
    unfold slice. rewrite !length_take, !length_drop, Hle. reflexivity.
  - rewrite !digits_of_app. rewrite (digits_of_digits _ H1),
      (digits_of_digits _ H2), (digits_of_digits _ H3).
    change (digits_of "(") with "". change (digits_of ") ") with "".
    change (digits_of "-") with "". rewrite !app_empty_l.
    rewrite slice_drop by lia. apply take_drop.
Qed.

Lemma fpe_ssn svc s :
  String.length (digits_of s) = 9%nat →
  layout (apply_format_preserving_encryption svc s SSN) = ssn_layout
  ∧ digits_of (apply_format_preserving_encryption svc s SSN)
    = map (shift_digit 1) (digits_of s).
Proof.
  intros Hlen. unfold apply_format_preserving_encryption.
  rewrite Hlen. cbn [Nat.eqb].
  set (e := map (shift_digit 1) (digits_of s)).
  assert (forallb is_digit e = true) as He by apply shifted_all_digits.
  assert (String.length e = 9%nat) as Hle
    by (unfold e; by rewrite length_map).
  assert (forallb is_digit (take 3 e) = true) as H1 by by apply forallb_take.
  assert (forallb is_digit (slice e 3 5) = true) as H2
    by by apply forallb_take, forallb_drop.
  assert (forallb is_digit (drop 5 e) = true) as H3 by by apply forallb_drop.
  split.
  - rewrite !layout_app. rewrite (layout_digits _ H1), (layout_digits _ H2),
      (layout_digits _ H3).
    unfold slice. rewrite !length_take, !length_drop, Hle. reflexivity.
  - rewrite !digits_of_app. rewrite (digits_of_digits _ H1),
      (digits_of_digits _ H2), (digits_of_digits _ H3).
    change (digits_of "-") with "". rewrite !app_empty_l.
    rewrite slice_drop by lia. apply take_drop.
Qed.

Lemma fpe_card svc s :
  (13 ≤ String.length (digits_of s))%nat →
  layout (apply_format_preserving_encryption svc s CREDIT_CARD)
    = card_layout (String.length (digits_of s))
  ∧ digits_of (apply_format_preserving_encryption svc s CREDIT_CARD)
    = map (shift_digit 2) (digits_of s).
Proof.
  intros Hlen. unfold apply_format_preserving_encryption.
  apply Nat.leb_le in Hlen as Hb. rewrite Hb.
  rewrite <- (length_map (shift_digit 2) (digits_of s)) at 1.
  apply group4_grouped, shifted_all_digits.
Qed.

(** When the digit count does not fit, and for every other entity type,
    the result is the deterministic token. *)
Lemma fpe_fallback svc s t :
  match t with
  | PHONE => String.length (digits_of s) ≠ 10%nat
  | SSN => String.length (digits_of s) ≠ 9%nat
  | CREDIT_CARD => (String.length (digits_of s) < 13)%nat
  | _ => True
  end →
  apply_format_preserving_encryption svc s t
  = generate_deterministic_token svc s t.
Proof.
  unfold apply_format_preserving_encryption.
  destruct t; try done; intros Hn.
  - by apply Nat.eqb_neq in Hn as ->.
  - by apply Nat.leb_gt in Hn as ->.
  - by apply Nat.eqb_neq in Hn as ->.
Qed.

End SubstitutionLayout.

(** C3, as the code has it: for a value of type PHONE with ten digits,
    SSN with nine digits or CREDIT_CARD with at least thirteen digits, the
    cipher shifts every digit by the amount of the type (3, 1, 2) modulo
    10 and lays the shifted digits out in the fixed layout of the type,
    [(ddd) ddd-dddd], [ddd-dd-dddd] or groups of four joined by [-]; the
    separators of the input are not kept.  For ["555-123-4567"] of type
    PHONE the result is ["(888) 456-7890"]. *)
Theorem fpe_canonical_layout `{Capabilities} (svc : PrivacyService) (s : string) :
  let n := String.length (digits_of s) in
  (n = 10%nat →
     layout (apply_format_preserving_encryption svc s PHONE) = phone_layout
     ∧ digits_of (apply_format_preserving_encryption svc s PHONE)
       = PyStr.map (shift_digit 3) (digits_of s))
  ∧ (n = 9%nat →
     layout (apply_format_preserving_encryption svc s SSN) = ssn_layout
     ∧ digits_of (apply_format_preserving_encryption svc s SSN)
       = PyStr.map (shift_digit 1) (digits_of s))
  ∧ ((13 ≤ n)%nat →
     layout (apply_format_preserving_encryption svc s CREDIT_CARD)
       = card_layout n
     ∧ digits_of (apply_format_preserving_encryption svc s CREDIT_CARD)
       = PyStr.map (shift_digit 2) (digits_of s))
  ∧ apply_format_preserving_encryption svc "555-123-4567" PHONE
    = "(888) 456-7890".
Proof.
  cbv zeta. split; [apply fpe_phone|]. split; [apply fpe_ssn|].
  split; [apply fpe_card | reflexivity].
Qed.

Lemma fpe_canonical_layout_witness :
  layout (@apply_format_preserving_encryption Demo.caps Demo.fresh
            "4532-1234-5678-9012" CREDIT_CARD)
  = card_layout 16
  ∧ @apply_format_preserving_encryption Demo.caps Demo.fresh
      "4532-1234-5678-9012" CREDIT_CARD
    = "6754-3456-7890-1234".
Proof.
  destruct (@fpe_canonical_layout Demo.caps Demo.fresh "4532-1234-5678-9012")
    as (_ & _ & Hcard & _).
  split; [apply Hcard; vm_compute; lia | reflexivity].
Defined.

(** C3 as it is written fails on its own example: the result for
    ["555-123-4567"] of type PHONE is ["(888) 456-7890"], which does not
    match [\d{3}-\d{3}-\d{4}], and the character at the position of the
    first separator of the input is a digit. *)
Lemma fpe_canonical_layout_counterexample :
  @apply_format_preserving_encryption Demo.caps Demo.fresh "555-123-4567" PHONE
  = "(888) 456-7890"
  ∧ layout (@apply_format_preserving_encryption Demo.caps Demo.fresh
              "555-123-4567" PHONE)
    ≠ phone_dash_layout
  ∧ String.get 3 "555-123-4567" = Some "-"%char
  ∧ String.get 3 (@apply_format_preserving_encryption Demo.caps Demo.fresh
                    "555-123-4567" PHONE)
    = Some "8"%char.
Proof. repeat split; try reflexivity. discriminate. Qed.

(** ** The token vault *)

Section Vault.
Context `{Capabilities}.
Import PyStr PyStrFacts.

Lemma vault_key_type v t v' t' : vault_key v t = vault_key v' t' → t = t'.
Proof.
  unfold vault_key. intros Heq.
  destruct t, t'; try reflexivity; exfalso; cbv in Heq; discriminate Heq.
Qed.

Lemma vault_key_token svc v t v' t' :
  vault_key v t = vault_key v' t' →
  generate_deterministic_token svc v t = generate_deterministic_token svc v' t'.
Proof.
  intros Heq. unfold generate_deterministic_token.
  rewrite Heq. by rewrite (vault_key_type _ _ _ _ Heq).
Qed.

Lemma get_or_create_new v t svc :
  token_map svc !! vault_key v t = None →
  get_or_create_replacement v t svc
  = (generate_deterministic_token svc v t,
     mkService (secret_key svc)
       (<[vault_key v t := generate_deterministic_token svc v t]> (token_map svc))
       (FileJson
          (<[vault_key v t := generate_deterministic_token svc v t]>
             (token_map svc)))).
Proof.
  intros Hnone. unfold get_or_create_replacement. rewrite Hnone.
  unfold save_token_map. simpl. by rewrite lookup_total_insert_eq.
Qed.

Lemma get_or_create_present v t svc tok :
  token_map svc !! vault_key v t = Some tok →
  get_or_create_replacement v t svc = (tok, svc).
Proof.
  intros Hsome. unfold get_or_create_replacement. rewrite Hsome.
  by rewrite (lookup_total_correct _ _ _ Hsome).
Qed.

(** The call leaves the key alone, only adds to the map, and its result
    is what the map holds afterwards. *)
Lemma get_or_create_grows v t svc :
  let '(tok, svc') := get_or_create_replacement v t svc in
  secret_key svc' = secret_key svc
  ∧ token_map svc ⊆ token_map svc'
  ∧ token_map svc' !! vault_key v t = Some tok.
Proof.
  destruct (token_map svc !! vault_key v t) as [tok|] eqn:Hl.
  - by rewrite (get_or_create_present _ _ _ _ Hl).
  - rewrite (get_or_create_new _ _ _ Hl). simpl.
    split; [done|]. split; [by apply insert_subseteq|].
    apply lookup_insert_eq.
Qed.

Lemma generate_token_key svc svc' v t :
  secret_key svc' = secret_key svc →
  generate_deterministic_token svc' v t = generate_deterministic_token svc v t.
Proof. intros Hk. unfold generate_deterministic_token. by rewrite Hk. Qed.

Lemma get_or_create_consistent v t svc :
  vault_consistent svc →
  (get_or_create_replacement v t svc).1 = generate_deterministic_token svc v t
  ∧ vault_consistent (get_or_create_replacement v t svc).2.
Proof.
  intros Hc.
  destruct (token_map svc !! vault_key v t) as [tok|] eqn:Hl.
  - rewrite (get_or_create_present _ _ _ _ Hl). simpl.
    split; [by apply Hc | done].
  - rewrite (get_or_create_new _ _ _ Hl). simpl. split; [done|].
    intros v' t' tok'. simpl.
    rewrite (generate_token_key svc _ v' t') by done.
    destruct (decide (vault_key v t = vault_key v' t')) as [Heq | Hne].
    + rewrite <- Heq, lookup_insert_eq. intros [= <-].
      by apply vault_key_token.
    + rewrite lookup_insert_ne by done. apply Hc.
Qed.

Lemma vault_consistent_empty key file :
  vault_consistent (mkService key ∅ file).
Proof. intros v t tok. simpl. by rewrite lookup_empty. Qed.

End Vault.

(** C4, as the code has it: the derived token is ["<" + t + ":"] followed
    by the first eight characters of the keyed digest of
    [t + ":" + lowercase(v)] and [">"], so values that differ only in
    letter case get the same token.  [get_or_create_replacement] returns
    this token when the key is new; when the key is present it returns the
    stored token without recomputing it, and that is the derived token
    provided the stored entries were derived under the current secret key,
    which the call then preserves. *)
Theorem derive_token_spec `{Capabilities} (svc : PrivacyService)
    (v v' : string) (t : EntityType) :
  generate_deterministic_token svc v t
  = "<" +:+ EntityTypeEnum.value t +:+ ":"
      +:+ PyStr.take 8
            (hmac_sha256_hexdigest (secret_key svc)
               (EntityTypeEnum.value t +:+ ":" +:+ PyStr.lower v))
      +:+ ">"
  ∧ (PyStr.lower v = PyStr.lower v' →
     generate_deterministic_token svc v t
     = generate_deterministic_token svc v' t)
  ∧ (token_map svc !! vault_key v t = None →
     (get_or_create_replacement v t svc).1
     = generate_deterministic_token svc v t)
  ∧ (∀ tok, token_map svc !! vault_key v t = Some tok →
     get_or_create_replacement v t svc = (tok, svc))
  ∧ (vault_consistent svc →
     (get_or_create_replacement v t svc).1
     = generate_deterministic_token svc v t
     ∧ vault_consistent (get_or_create_replacement v t svc).2).
Proof.
  split; [reflexivity|]. split.
  { intros Hl. unfold generate_deterministic_token, vault_key. by rewrite Hl. }
  split.
  { intros Hn. by rewrite (get_or_create_new _ _ _ Hn). }
  split.
  { intros tok. apply get_or_create_present. }
  apply get_or_create_consistent.
Qed.

Lemma derive_token_spec_witness :
  @generate_deterministic_token Demo.caps Demo.fresh "John@Example.COM" EMAIL
  = @generate_deterministic_token Demo.caps Demo.fresh "john@example.com" EMAIL
  ∧ (@get_or_create_replacement Demo.caps "John@Example.COM" EMAIL
       Demo.fresh).1
    = "<EMAIL:ab0157dd>".
Proof.
  destruct (@derive_token_spec Demo.caps Demo.fresh
              "John@Example.COM" "john@example.com" EMAIL)
    as (_ & Hcase & Hnew & _ & _).
  split.
  - apply Hcase. reflexivity.
  - rewrite Hnew; reflexivity.
Defined.

(** C4 as it is written fails for a key that is already present: a
    process started without a configured key draws a new random key but
    loads the tokens an earlier process stored, and returns the stored
    token, which is not the token derived under its own key. *)
Lemma derive_token_spec_counterexample :
  ∃ svc,
    Demo.second_run = Ok svc
    ∧ token_map svc !! vault_key "john@example.com" EMAIL
      = Some "<EMAIL:79fff406>"
    ∧ (@get_or_create_replacement Demo.caps "john@example.com" EMAIL svc).1
      = "<EMAIL:79fff406>"
    ∧ @generate_deterministic_token Demo.caps svc "john@example.com" EMAIL
      = "<EMAIL:93417358>"
    ∧ (@get_or_create_replacement Demo.caps "john@example.com" EMAIL svc).1
      ≠ @generate_deterministic_token Demo.caps svc "john@example.com" EMAIL.
Proof.
  eexists. split; [reflexivity|].
  split; [vm_compute; reflexivity|].
  split; [vm_compute; reflexivity|].
  split; [vm_compute; reflexivity|].
  vm_compute. discriminate.
Qed.

(** C8, as the code has it: when neither the constructor argument nor
    [PRIVACY_SECRET_KEY] provides a key, construction does not fail for
    that reason; it takes the freshly drawn [secrets.token_hex(32)] as its
    key.  An empty constructor argument is treated like a missing one.
    Construction only fails when [token_map.json] cannot be decoded. *)
Theorem init_without_key (token_hex : string) (file : TokenFile) :
  init (Some "") None token_hex file = init None None token_hex file
  ∧ match init None None token_hex file with
    | Ok svc => secret_key svc = token_hex ∧ file ≠ FileInvalid
    | Raise e => e = JSONDecodeError ∧ file = FileInvalid
    end.
Proof.
  split; [reflexivity|].
  unfold init, load_token_map. simpl. by destruct file.
Qed.

(** C8 as it is written fails: with no key configured and no token file,
    construction succeeds and the service runs under the drawn key. *)
Lemma init_without_key_counterexample :
  init None None
    "9f86d081884c7d659a2feaa0c55ad015a3bf4f1b2b0b822cd15d6c15b0f00a08"
    FileNotFound
  = Ok (mkService
          "9f86d081884c7d659a2feaa0c55ad015a3bf4f1b2b0b822cd15d6c15b0f00a08"
          ∅ FileNotFound).
Proof. reflexivity. Qed.

(** ** Detection and the vault *)

Section Detection.
Context `{Capabilities}.

Lemma vault_extends_refl svc : vault_extends svc svc.
Proof. split; [done|]. split; [done | by left]. Qed.

Lemma vault_extends_trans svc1 svc2 svc3 :
  vault_extends svc1 svc2 → vault_extends svc2 svc3 → vault_extends svc1 svc3.
Proof.
  intros (Hk1 & Hm1 & Hf1) (Hk2 & Hm2 & Hf2).
  split; [congruence|]. split; [by etrans|].
  destruct Hf2 as [-> | Hf2]; [done | by right].
Qed.

Lemma recorded_mono svc svc' e :
  token_map svc ⊆ token_map svc' → recorded svc e → recorded svc' e.
Proof. intros Hsub Hr. unfold recorded in *. by eapply lookup_weaken. Qed.

Lemma get_or_create_extends v t svc :
  vault_extends svc (get_or_create_replacement v t svc).2
  ∧ token_map (get_or_create_replacement v t svc).2 !! vault_key v t
    = Some (get_or_create_replacement v t svc).1.
Proof.
  destruct (token_map svc !! vault_key v t) as [tok|] eqn:Hl.
  - rewrite (get_or_create_present _ _ _ _ Hl). simpl.
    split; [apply vault_extends_refl | done].
  - rewrite (get_or_create_new _ _ _ Hl). simpl.
    split; [|apply lookup_insert_eq].
    split; [done|]. split; [by apply insert_subseteq | by right].
Qed.

(** A call on a service that already holds what the call stored returns
    the same token and changes nothing. *)
Lemma get_or_create_replay v t svc svc2 :
  token_map (get_or_create_replacement v t svc).2 ⊆ token_map svc2 →
  get_or_create_replacement v t svc2
  = ((get_or_create_replacement v t svc).1, svc2).
Proof.
  intros Hsub. apply get_or_create_present.
  eapply lookup_weaken; [|exact Hsub].
  apply get_or_create_extends.
Qed.

(** *** The three loops

    Each loop appends to the list it is given, extends the vault, and
    leaves every span it appended recorded in the map. *)

Lemma ner_loop_spec config ents acc svc :
  ∃ new,
    (ner_loop config ents acc svc).1 = acc ++ new
    ∧ vault_extends svc (ner_loop config ents acc svc).2
    ∧ Forall (recorded (ner_loop config ents acc svc).2) new
    ∧ Forall (from_tagger ents) new.
Proof.
  revert acc svc. induction ents as [|ent rest IH]; intros acc svc.
  { exists []. simpl. rewrite app_nil_r.
    repeat split; auto using vault_extends_refl. }
  assert (∀ new, Forall (from_tagger rest) new →
                 Forall (from_tagger (ent :: rest)) new) as Hweak.
  { intros new Hnew. eapply Forall_impl; [exact Hnew|].
    intros e (x & Hx & Hrest). exists x. split; [by right | done]. }
  cbn [ner_loop].
  destruct (bool_decide _); [|destruct (IH acc svc) as (new & ?&?&?&?); eauto 10].
  destruct (EntityTypeEnum.of_value _) as [t|];
    [|destruct (IH acc svc) as (new & ?&?&?&?); eauto 10].
  destruct (_ <=? _); [|destruct (IH acc svc) as (new & ?&?&?&?); eauto 10].
  pose proof (get_or_create_extends (ent_text ent) t svc) as [Hext Hrec].
  destruct (get_or_create_replacement (ent_text ent) t svc) as [tok svc1].
  simpl in Hext, Hrec.
  set (span := mkSpan (ent_text ent) (start_char ent) (end_char ent) t 90 tok).
  destruct (IH (acc ++ [span]) svc1) as (new & Heq & Hext' & Hrec' & Hfrom).
  exists (span :: new). rewrite Heq, <- app_assoc. split; [done|].
  split; [by eapply vault_extends_trans|].
  split; constructor; auto.
  - eapply recorded_mono; [apply Hext' | exact Hrec].
  - exists ent. repeat split; [by left].
Qed.

Lemma match_loop_spec t ms acc svc :
  ∃ new,
    (match_loop t ms acc svc).1 = acc ++ new
    ∧ vault_extends svc (match_loop t ms acc svc).2
    ∧ Forall (recorded (match_loop t ms acc svc).2) new
    ∧ Forall (λ e, entity_type e = t ∧
                   ∃ m, m ∈ ms ∧ text e = m_group m ∧ start e = m_start m
                        ∧ end_ e = m_end m ∧ confidence e = 95) new
    ∧ length new = length ms.
Proof.
  revert acc svc. induction ms as [|m rest IH]; intros acc svc.
  { exists []. simpl. rewrite app_nil_r.
    repeat split; auto using vault_extends_refl. }
  cbn [match_loop].
  pose proof (get_or_create_extends (m_group m) t svc) as [Hext Hrec].
  destruct (get_or_create_replacement (m_group m) t svc) as [tok svc1].
  simpl in Hext, Hrec.
  set (span := mkSpan (m_group m) (m_start m) (m_end m) t 95 tok).
  destruct (IH (acc ++ [span]) svc1)
    as (new & Heq & Hext' & Hrec' & Hfrom & Hlen).
  exists (span :: new). rewrite Heq, <- app_assoc. split; [done|].
  split; [by eapply vault_extends_trans|].
  split; [|split]; [constructor; auto | constructor | simpl; by rewrite Hlen].
  - eapply recorded_mono; [apply Hext' | exact Hrec].
  - split; [done|]. exists m. repeat split. by left.
  - eapply Forall_impl; [exact Hfrom|].
    intros e (Ht & x & Hx & Hrest). split; [done|].
    exists x. split; [by right | done].
Qed.

Lemma pattern_loop_spec config s pats acc svc :
  ∃ new,
    (pattern_loop config s pats acc svc).1 = acc ++ new
    ∧ vault_extends svc (pattern_loop config s pats acc svc).2
    ∧ Forall (recorded (pattern_loop config s pats acc svc).2) new
    ∧ Forall (from_pattern s) new.
Proof.
  revert acc svc. induction pats as [|t rest IH]; intros acc svc.
  { exists []. simpl. rewrite app_nil_r.
    repeat split; auto using vault_extends_refl. }
  cbn [pattern_loop]. destruct (bool_decide _); [|apply IH].
  destruct (match_loop_spec t (finditer t s) acc svc)
    as (new1 & Heq1 & Hext1 & Hrec1 & Hfrom1 & _).
  destruct (match_loop t (finditer t s) acc svc) as [acc1 svc1].
  simpl in Heq1, Hext1, Hrec1. subst acc1.
  destruct (IH (acc ++ new1) svc1) as (new2 & Heq2 & Hext2 & Hrec2 & Hfrom2).
  exists (new1 ++ new2). rewrite Heq2, <- app_assoc. split; [done|].
  split; [by eapply vault_extends_trans|].
  split; apply Forall_app; split; auto.
  - eapply Forall_impl; [exact Hrec1|].
    intros e. apply recorded_mono, Hext2.
  - eapply Forall_impl; [exact Hfrom1|].
    intros e (<- & m & Hm & Hrest). by exists m.
Qed.

(** *** Replaying a loop

    On a service whose map contains what the loop left behind, the loop
    returns the same list and changes nothing. *)

Lemma ner_loop_replay config ents acc svc svc2 :
  token_map (ner_loop config ents acc svc).2 ⊆ token_map svc2 →
  ner_loop config ents acc svc2 = ((ner_loop config ents acc svc).1, svc2).
Proof.
  revert acc svc. induction ents as [|ent rest IH]; intros acc svc; [done|].
  cbn [ner_loop]. destruct (bool_decide _); [|apply IH].
  destruct (EntityTypeEnum.of_value _) as [t|]; [|apply IH].
  destruct (_ <=? _); [|apply IH].
  intros Hsub.
  rewrite (get_or_create_replay (ent_text ent) t svc svc2).
  - destruct (get_or_create_replacement (ent_text ent) t svc) as [tok svc1].
    by apply IH.
  - destruct (get_or_create_replacement (ent_text ent) t svc) as [tok svc1].
    destruct (ner_loop_spec config rest
                (acc ++ [mkSpan (ent_text ent) (start_char ent) (end_char ent)
                           t 90 tok]) svc1) as (new & _ & Hext & _).
    etrans; [apply Hext | exact Hsub].
Qed.

Lemma match_loop_replay t ms acc svc svc2 :
  token_map (match_loop t ms acc svc).2 ⊆ token_map svc2 →
  match_loop t ms acc svc2 = ((match_loop t ms acc svc).1, svc2).
Proof.
  revert acc svc. induction ms as [|m rest IH]; intros acc svc; [done|].
  cbn [match_loop]. intros Hsub.
  rewrite (get_or_create_replay (m_group m) t svc svc2).
  - destruct (get_or_create_replacement (m_group m) t svc) as [tok svc1].
    by apply IH.
  - destruct (get_or_create_replacement (m_group m) t svc) as [tok svc1].
    destruct (match_loop_spec t rest
                (acc ++ [mkSpan (m_group m) (m_start m) (m_end m) t 95 tok])
                svc1) as (new & _ & Hext & _).
    etrans; [apply Hext | exact Hsub].
Qed.

Lemma pattern_loop_replay config s pats acc svc svc2 :
  token_map (pattern_loop config s pats acc svc).2 ⊆ token_map svc2 →
  pattern_loop config s pats acc svc2
  = ((pattern_loop config s pats acc svc).1, svc2).
Proof.
  revert acc svc. induction pats as [|t rest IH]; intros acc svc; [done|].
  cbn [pattern_loop]. destruct (bool_decide _); [|apply IH].
  intros Hsub.
  rewrite (match_loop_replay t (finditer t s) acc svc svc2).
  - destruct (match_loop t (finditer t s) acc svc) as [acc1 svc1].
    by apply IH.
  - destruct (match_loop t (finditer t s) acc svc) as [acc1 svc1].
    destruct (pattern_loop_spec config s rest acc1 svc1)
      as (new & _ & Hext & _).
    etrans; [apply Hext | exact Hsub].
Qed.

(** *** Collection and detection *)

Lemma collect_entities_spec s l svc :
  vault_extends svc (collect_entities s l svc).2
  ∧ match (collect_entities s l svc).1 with
    | Ok ents =>
        Forall (recorded (collect_entities s l svc).2) ents
        ∧ Forall (λ e, (∃ tagger tagged, nlp = Some tagger
                          ∧ tagger s = Ok tagged ∧ from_tagger tagged e)
                       ∨ from_pattern s e) ents
    | Raise e =>
        (collect_entities s l svc).2 = svc
        ∧ ∃ tagger, nlp = Some tagger ∧ tagger s = Raise e
    end.
Proof.
  unfold collect_entities. destruct nlp as [tagger|] eqn:Hnlp.
  - destruct (tagger s) as [tagged|e] eqn:Htag.
    + destruct (ner_loop_spec (privacy_configs l) tagged [] svc)
        as (new1 & Heq1 & Hext1 & Hrec1 & Hfrom1).
      destruct (ner_loop (privacy_configs l) tagged [] svc) as [acc1 svc1].
      simpl in Heq1, Hext1, Hrec1. subst acc1.
      destruct (pattern_loop_spec (privacy_configs l) s patterns new1 svc1)
        as (new2 & Heq2 & Hext2 & Hrec2 & Hfrom2).
      destruct (pattern_loop (privacy_configs l) s patterns new1 svc1)
        as [acc2 svc2].
      simpl in *. subst acc2.
      split; [by eapply vault_extends_trans|].
      split; apply Forall_app; split.
      * eapply Forall_impl; [exact Hrec1|].
        intros e. apply recorded_mono, Hext2.
      * done.
      * eapply Forall_impl; [exact Hfrom1|]. intros e He. left. eauto.
      * eapply Forall_impl; [exact Hfrom2|]. intros e He. by right.
    + simpl. split; [apply vault_extends_refl|]. split; [done|]. eauto.
  - destruct (pattern_loop_spec (privacy_configs l) s patterns [] svc)
      as (new2 & Heq2 & Hext2 & Hrec2 & Hfrom2).
    destruct (pattern_loop (privacy_configs l) s patterns [] svc)
      as [acc2 svc2].
    simpl in *. subst acc2. split; [done|]. split; [done|].
    eapply Forall_impl; [exact Hfrom2|]. intros e He. by right.
Qed.

Lemma collect_entities_replay s l svc svc2 :
  token_map (collect_entities s l svc).2 ⊆ token_map svc2 →
  collect_entities s l svc2 = ((collect_entities s l svc).1, svc2).
Proof.
  unfold collect_entities. destruct nlp as [tagger|].
  - destruct (tagger s) as [tagged|e]; [|done].
    pose proof (ner_loop_replay (privacy_configs l) tagged [] svc svc2) as Hner.
    destruct (ner_loop (privacy_configs l) tagged [] svc) as [acc1 svc1].
    pose proof (pattern_loop_replay (privacy_configs l) s patterns acc1
                  svc1 svc2) as Hpat.
    pose proof (pattern_loop_spec (privacy_configs l) s patterns acc1 svc1)
      as (new & _ & Hext & _).
    destruct (pattern_loop (privacy_configs l) s patterns acc1 svc1)
      as [acc2 svc2'].
    simpl in *. intros Hsub.
    rewrite Hner by (etrans; [apply Hext | exact Hsub]).
    by rewrite Hpat.
  - pose proof (pattern_loop_replay (privacy_configs l) s patterns []
                  svc svc2) as Hpat.
    destruct (pattern_loop (privacy_configs l) s patterns [] svc)
      as [acc2 svc2'].
    simpl in *. intros Hsub. by rewrite Hpat.
Qed.

Lemma detect_state s l svc :
  (detect_sensitive_entities s l svc).2 = (collect_entities s l svc).2.
Proof.
  unfold detect_sensitive_entities.
  by destruct (collect_entities s l svc) as [[ents|e] svc'].
Qed.

Lemma detect_result s l svc :
  (detect_sensitive_entities s l svc).1
  = match (collect_entities s l svc).1 with
    | Ok ents => Ok (_remove_overlapping_entities ents)
    | Raise e => Raise e
    end.
Proof.
  unfold detect_sensitive_entities.
  by destruct (collect_entities s l svc) as [[ents|e] svc'].
Qed.

Lemma detect_extends s l svc :
  vault_extends svc (detect_sensitive_entities s l svc).2.
Proof. rewrite detect_state. apply collect_entities_spec. Qed.

Lemma detect_replay s l svc svc2 :
  token_map (detect_sensitive_entities s l svc).2 ⊆ token_map svc2 →
  detect_sensitive_entities s l svc2
  = ((detect_sensitive_entities s l svc).1, svc2).
Proof.
  rewrite detect_state, detect_result. intros Hsub.
  unfold detect_sensitive_entities.
  rewrite (collect_entities_replay s l svc svc2 Hsub).
  by destruct (collect_entities s l svc).1.
Qed.

End Detection.

Lemma get_detected_entities_state `{Capabilities} s l svc :
  (Endpoints.get_detected_entities s l svc).2
  = (detect_sensitive_entities s l svc).2.
Proof.
  unfold Endpoints.get_detected_entities.
  by destruct (detect_sensitive_entities s l svc) as [[ents|e] svc'].
Qed.

(** C10: the detection-only operation, as [/entities/detected] calls
    it, leaves in the token map an entry for every candidate span it
    found, those that overlap resolution then discards included; the map
    only grows, and whenever it grew the file holds the new map. *)
Theorem detection_grows_vault `{Capabilities} (s : string) (l : PrivacyLevel)
    (svc : PrivacyService) (ents : list SensitiveSpan) :
  (collect_entities s l svc).1 = Ok ents →
  let svc' := (Endpoints.get_detected_entities s l svc).2 in
  svc' = (detect_sensitive_entities s l svc).2
  ∧ (detect_sensitive_entities s l svc).1
    = Ok (_remove_overlapping_entities ents)
  ∧ token_map svc ⊆ token_map svc'
  ∧ (∀ e, e ∈ ents →
          token_map svc' !! vault_key (text e) (entity_type e)
          = Some (replacement e))
  ∧ (token_map svc' ≠ token_map svc →
     token_file svc' = FileJson (token_map svc')).
Proof.
  intros Hents. cbv zeta. rewrite get_detected_entities_state.
  split; [done|]. rewrite detect_result, detect_state, Hents.
  split; [done|].
  destruct (collect_entities_spec s l svc) as ((_ & Hsub & Hfile) & Hrest).
  rewrite Hents in Hrest. destruct Hrest as [Hrec _].
  split; [done|]. split.
  - intros e He. rewrite Forall_forall in Hrec. by apply Hrec.
  - intros Hne. destruct Hfile as [Heq | Hfile]; [|done].
    by rewrite Heq in Hne.
Qed.

Lemma detection_grows_vault_witness :
  (@detect_sensitive_entities Demo.caps_regex_only Demo.digits_run STRICT
     Demo.fresh).1
  = Ok [mkSpan Demo.digits_run 0 21 MONEY 95 "<MONEY:e89ec3c8>"]
  ∧ token_map
      (@Endpoints.get_detected_entities Demo.caps_regex_only Demo.digits_run
         STRICT Demo.fresh).2
    !! "PHONE:5551234567"
    = Some "<PHONE:f8d481cd>".
Proof.
  destruct (@detection_grows_vault Demo.caps_regex_only Demo.digits_run STRICT
              Demo.fresh
              [mkSpan "5551234567" 1 11 PHONE 95 "<PHONE:f8d481cd>";
               mkSpan "5559876543" 11 21 PHONE 95 "<PHONE:974624da>";
               mkSpan Demo.digits_run 0 21 MONEY 95 "<MONEY:e89ec3c8>"])
    as (_ & Hdet & _ & Hrec & _).
  - vm_compute. reflexivity.
  - split; [exact Hdet|].
    apply (Hrec (mkSpan "5551234567" 1 11 PHONE 95 "<PHONE:f8d481cd>")).
    by left.
Defined.

(** ** Sanitisation *)

Section Sanitize.
Context `{Capabilities}.

Lemma entity_value_inj t t' :
  EntityTypeEnum.value t = EntityTypeEnum.value t' → t = t'.
Proof. destruct t, t'; simpl; intros Heq; try reflexivity; discriminate Heq. Qed.

Lemma fpe_key svc svc2 v t :
  secret_key svc2 = secret_key svc →
  apply_format_preserving_encryption svc2 v t
  = apply_format_preserving_encryption svc v t.
Proof.
  intros Hk. unfold apply_format_preserving_encryption.
  by rewrite (generate_token_key svc svc2 v t Hk).
Qed.

Lemma choose_replacement_key svc svc2 pf e :
  secret_key svc2 = secret_key svc →
  choose_replacement svc2 pf e = choose_replacement svc pf e.
Proof.
  intros Hk. unfold choose_replacement. by rewrite (fpe_key svc svc2 _ _ Hk).
Qed.

Lemma replace_loop_key svc svc2 pf ents cur found :
  secret_key svc2 = secret_key svc →
  replace_loop svc2 pf ents cur found = replace_loop svc pf ents cur found.
Proof.
  intros Hk. revert cur found.
  induction ents as [|e rest IH]; intros cur found; simpl; [done|].
  by rewrite (choose_replacement_key svc svc2 pf e Hk), IH.
Qed.

(** The audit list is the list of the spans, in the order of the loop. *)
Lemma replace_loop_found svc pf ents cur found :
  (replace_loop svc pf ents cur found).2
  = found ++
    ((λ e, mkAudit (text e) (choose_replacement svc pf e)
             (EntityTypeEnum.value (entity_type e)) (confidence e)
             (start e) (end_ e)) <$> ents).
Proof.
  revert cur found.
  induction ents as [|e rest IH]; intros cur found; simpl.
  - by rewrite app_nil_r.
  - by rewrite IH, <- app_assoc.
Qed.

Lemma sanitize_state s l pf svc :
  (sanitize_text s l pf svc).2 = (detect_sensitive_entities s l svc).2.
Proof.
  unfold sanitize_text.
  destruct (detect_sensitive_entities s l svc) as [[ents|e] svc']; [|done].
  by destruct (replace_loop _ _ _ _ _).
Qed.

Lemma sanitize_extends s l pf svc :
  vault_extends svc (sanitize_text s l pf svc).2.
Proof. rewrite sanitize_state. apply detect_extends. Qed.

Lemma sanitize_replay s l pf svc svc2 :
  secret_key svc2 = secret_key svc →
  token_map (sanitize_text s l pf svc).2 ⊆ token_map svc2 →
  sanitize_text s l pf svc2 = ((sanitize_text s l pf svc).1, svc2).
Proof.
  intros Hk. rewrite sanitize_state. intros Hsub.
  pose proof (detect_extends s l svc) as (Hk' & _).
  unfold sanitize_text. rewrite (detect_replay s l svc svc2 Hsub).
  destruct (detect_sensitive_entities s l svc) as [[ents|e] svc']; [|done].
  simpl in *.
  rewrite (replace_loop_key svc' svc2) by congruence.
  by destruct (replace_loop _ _ _ _ _).
Qed.

Lemma run_call_extends c svc : vault_extends svc (run_call c svc).
Proof. destruct c; simpl; [apply sanitize_extends | apply detect_extends]. Qed.

Lemma run_calls_extends cs svc : vault_extends svc (run_calls cs svc).
Proof.
  revert svc. induction cs as [|c cs IH]; intros svc; simpl.
  - apply vault_extends_refl.
  - eapply vault_extends_trans; [apply run_call_extends | apply IH].
Qed.

(** Within one result, equal values of equal type have equal
    replacements. *)
Lemma sanitize_consistent s l pf svc sanitized score found x y :
  (sanitize_text s l pf svc).1 = Ok (sanitized, score, found) →
  x ∈ found → y ∈ found →
  a_entity_type x = a_entity_type y → a_original x = a_original y →
  a_replacement x = a_replacement y.
Proof.
  unfold sanitize_text.
  pose proof (collect_entities_spec s l svc) as [_ Hspec].
  pose proof (detect_state s l svc) as Hst.
  pose proof (detect_result s l svc) as Hres.
  destruct (detect_sensitive_entities s l svc) as [[ents|e] svc']; [|done].
  simpl in Hst, Hres. subst svc'.
  destruct (collect_entities s l svc).1 as [cands|] eqn:Hc; [|done].
  injection Hres as ->. destruct Hspec as [Hrec _].
  pose proof (replace_loop_found (collect_entities s l svc).2 pf
                (stable_sort start_desc
                   (_remove_overlapping_entities cands)) s []) as Hfound.
  destruct (replace_loop _ _ _ _ _) as [out found']. simpl in Hfound.
  intros [= _ _ <-]. subst found'.
  assert (∀ a, a ∈ stable_sort start_desc
                     (_remove_overlapping_entities cands) →
               recorded (collect_entities s l svc).2 a) as Hall.
  { intros a Ha. apply stable_sort_elem_of, remove_overlapping_subset in Ha.
    rewrite Forall_forall in Hrec. by apply Hrec. }
  intros (e1 & -> & He1)%list_elem_of_fmap (e2 & -> & He2)%list_elem_of_fmap.
  simpl. intros Ht%entity_value_inj Htext.
  unfold choose_replacement. rewrite Ht, Htext.
  destruct (pf && _); [done|].
  apply Hall in He1, He2. unfold recorded in He1, He2.
  rewrite Ht, Htext in He1. congruence.
Qed.

End Sanitize.

(** C1: for a fixed secret key, fixed tagger and patterns, a second call
    of [sanitize_text] with the same text, privacy level and
    [preserve_format] returns what the first call returned, whatever
    calls of the service happened in between; and within a result, equal
    original values of the same entity type carry the same replacement. *)
Theorem sanitize_deterministic `{Capabilities} (s : string)
    (l : PrivacyLevel) (pf : bool) (svc : PrivacyService) (cs : list Call) :
  let first := sanitize_text s l pf svc in
  let second := sanitize_text s l pf (run_calls cs first.2) in
  second.1 = first.1
  ∧ second.2 = run_calls cs first.2
  ∧ ∀ sanitized score found x y,
      second.1 = Ok (sanitized, score, found) →
      x ∈ found → y ∈ found →
      a_entity_type x = a_entity_type y → a_original x = a_original y →
      a_replacement x = a_replacement y.
Proof.
  cbv zeta.
  pose proof (run_calls_extends cs (sanitize_text s l pf svc).2)
    as (Hk & Hsub & _).
  pose proof (sanitize_extends s l pf svc) as (Hk' & _).
  rewrite (sanitize_replay s l pf svc (run_calls cs (sanitize_text s l pf svc).2))
    by (done || congruence).
  simpl. split; [done|]. split; [done|].
  intros sanitized score found x y. apply sanitize_consistent.
Qed.

(** ** Splicing from right to left *)

Section Splice.
Context `{Capabilities}.
Import PyStr PyStrFacts.

Lemma splice_length cur e r :
  0 ≤ start e → start e ≤ end_ e → end_ e ≤ len cur →
  len (splice cur e r) = len cur - (end_ e - start e) + len r.
Proof.
  intros H0 Hse Hel. unfold splice, slice_to, slice_from, clamp, len in *.
  rewrite !length_app, length_take, length_drop.
  assert ((start e <? 0) = false) as -> by (apply Z.ltb_ge; lia).
  assert ((end_ e <? 0) = false) as -> by (apply Z.ltb_ge; lia).
  lia.
Qed.

Lemma replaced_length_app f1 f2 :
  replaced_length (f1 ++ f2) = replaced_length f1 + replaced_length f2.
Proof.
  unfold replaced_length. induction f1 as [|a f1 IH]; simpl; [done|].
  rewrite IH. lia.
Qed.

Lemma replacement_length_app f1 f2 :
  replacement_length (f1 ++ f2)
  = replacement_length f1 + replacement_length f2.
Proof.
  unfold replacement_length. induction f1 as [|a f1 IH]; simpl; [done|].
  rewrite IH. lia.
Qed.

(** The loop keeps the balance between the length of the text and what
    the audit list accounts for. *)
Lemma replace_loop_length svc pf ents : ∀ B cur found,
  right_to_left B ents → B ≤ len cur →
  len (replace_loop svc pf ents cur found).1
  = len cur
    - (replaced_length (replace_loop svc pf ents cur found).2
       - replaced_length found)
    + (replacement_length (replace_loop svc pf ents cur found).2
       - replacement_length found).
Proof.
  induction ents as [|e rest IH]; intros B cur found Hrl HB; simpl.
  { lia. }
  destruct Hrl as (H0 & Hse & HeB & Hrest).
  set (r := choose_replacement svc pf e).
  pose proof (splice_length cur e r H0 Hse ltac:(lia)) as Hlen.
  assert (0 ≤ len r) as Hr by (unfold len; lia).
  rewrite (IH (start e)); [|done|lia].
  rewrite !replace_loop_found, !replaced_length_app, !replacement_length_app.
  rewrite Hlen. unfold replaced_length, replacement_length. simpl. lia.
Qed.

Lemma start_desc_sorted l :
  StronglySorted (λ x y, start y ≤ start x) (stable_sort start_desc l).
Proof.
  eapply StronglySorted_weaken; [|apply (stable_sort_sorted start_desc)].
  - intros x y Hxy. unfold not_after, start_desc in Hxy. lia.
  - unfold start_desc. intros x y. lia.
  - unfold start_desc. intros x y z. lia.
Qed.

(** Spans that are sorted by descending start, pairwise disjoint and
    inside the text can be spliced from right to left. *)
Lemma sorted_disjoint_right_to_left F : ∀ B,
  StronglySorted (λ x y, start y ≤ start x) F →
  NoDup F →
  (∀ x y, x ∈ F → y ∈ F → x ≠ y → ¬ span_overlap x y) →
  (∀ x, x ∈ F → span_within B x) →
  right_to_left B F.
Proof.
  induction F as [|e rest IH]; intros B Hs Hnd Hdis Hin; simpl; [done|].
  apply StronglySorted_inv in Hs as [Hs Hhd].
  apply NoDup_cons in Hnd as [Hne Hnd].
  destruct (Hin e) as (H0 & Hlt & HB); [by left|].
  split; [done|]. split; [lia|]. split; [done|].
  apply IH; [done | done | |].
  - intros x y Hx Hy. apply Hdis; by right.
  - intros x Hx. destruct (Hin x) as (Hx0 & Hxlt & HxB); [by right|].
    rewrite Forall_forall in Hhd. specialize (Hhd x Hx).
    assert (¬ span_overlap e x) as Hno.
    { apply Hdis; [by left | by right |]. intros ->. done. }
    unfold span_within, span_overlap in *. lia.
Qed.

Lemma disjoint_nonempty_NoDup R :
  pairwise_disjoint R → (∀ x, x ∈ R → start x < end_ x) →
  NoDup R
  ∧ ∀ x y, x ∈ R → y ∈ R → x ≠ y → ¬ span_overlap x y.
Proof.
  intros Hd Hne. split.
  - apply NoDup_alt. intros i j x Hi Hj.
    destruct (decide (i = j)) as [|Hij]; [done|]. exfalso.
    assert (span_overlap x x) as Hov.
    { assert (start x < end_ x) by by eapply Hne, list_elem_of_lookup_2.
      by split. }
    destruct (decide (i < j)%nat).
    + by apply (Hd i j x x).
    + apply (Hd j i x x); [lia | done..].
  - intros x y [i Hi]%list_elem_of_lookup_1 [j Hj]%list_elem_of_lookup_1 Hxy.
    assert (i ≠ j) as Hij by (intros ->; congruence).
    destruct (decide (i < j)%nat).
    + by apply (Hd i j x y).
    + intros Hov. apply (Hd j i y x); [lia | done | done |].
      by apply span_overlap_sym.
Qed.

End Splice.

(** C6: when the tagger and the patterns report non-empty spans inside
    the text, as [doc.ents] and [finditer] do, the audit list of
    [sanitize_text] is in order of descending start offset, and the
    length of the sanitised text is the length of the text minus the sum
    of [end - start] over the replaced spans plus the sum of the lengths
    of the replacements. *)
Theorem sanitize_length `{Capabilities} (s : string) (l : PrivacyLevel)
    (pf : bool) (svc : PrivacyService)
    (sanitized : string) (score : Z) (found : list AuditEntry) :
  (∀ tagger tagged ent,
     nlp = Some tagger → tagger s = Ok tagged → ent ∈ tagged →
     0 ≤ start_char ent ∧ start_char ent < end_char ent
     ∧ end_char ent ≤ PyStr.len s) →
  (∀ t m, m ∈ finditer t s →
     0 ≤ m_start m ∧ m_start m < m_end m ∧ m_end m ≤ PyStr.len s) →
  (sanitize_text s l pf svc).1 = Ok (sanitized, score, found) →
  StronglySorted (λ x y, a_start y ≤ a_start x) found
  ∧ PyStr.len sanitized
    = PyStr.len s - replaced_length found + replacement_length found.
Proof.
  intros Htag Hpat. unfold sanitize_text.
  pose proof (collect_entities_spec s l svc) as [_ Hspec].
  pose proof (detect_result s l svc) as Hres.
  destruct (detect_sensitive_entities s l svc) as [[ents|e] svc']; [|done].
  simpl in Hres.
  destruct (collect_entities s l svc).1 as [cands|] eqn:Hc; [|done].
  injection Hres as ->. destruct Hspec as [_ Horigin].
  assert (∀ x, x ∈ cands → span_within (PyStr.len s) x) as Hwithin.
  { intros x Hx. rewrite Forall_forall in Horigin.
    destruct (Horigin x Hx)
      as [(tagger & tagged & Hn & Ht & ent & Hent & _ & Hs & He & _)
         | (m & Hm & _ & Hs & He & _)].
    - unfold span_within. rewrite Hs, He. by eapply Htag.
    - unfold span_within. rewrite Hs, He. by eapply Hpat. }
  set (R := _remove_overlapping_entities cands).
  assert (∀ x, x ∈ R → span_within (PyStr.len s) x) as HwR.
  { intros x Hx. by apply Hwithin, remove_overlapping_subset. }
  destruct (disjoint_nonempty_NoDup R) as [Hnd Hdis].
  { apply remove_overlapping_disjoint. }
  { intros x Hx. by apply HwR. }
  set (F := stable_sort start_desc R).
  assert (right_to_left (PyStr.len s) F) as Hrl.
  { apply sorted_disjoint_right_to_left.
    - apply start_desc_sorted.
    - unfold F. by rewrite stable_sort_perm.
    - intros x y Hx%stable_sort_elem_of Hy%stable_sort_elem_of.
      by apply Hdis.
    - intros x Hx%stable_sort_elem_of. by apply HwR. }
  pose proof (replace_loop_length svc' pf F (PyStr.len s) s [] Hrl
                ltac:(lia)) as Hlen.
  pose proof (replace_loop_found svc' pf F s []) as Hfound.
  destruct (replace_loop svc' pf F s []) as [out found'].
  simpl in Hlen, Hfound. intros [= <- _ <-]. split.
  - rewrite Hfound. apply StronglySorted_fmap with (R1 := λ x y, start y ≤ start x).
    + by intros x y.
    + apply start_desc_sorted.
  - rewrite Hlen. unfold replaced_length, replacement_length. simpl. lia.
Qed.

Lemma sanitize_length_witness :
  PyStr.len
    "<PERSON:2bb9dc2b>'s email is <EMAIL:ab0157dd> and phone is (888) 456-7890"
  = PyStr.len Demo.sentence - (12 + 16 + 8) + (14 + 16 + 17).
Proof.
  destruct (@sanitize_length Demo.caps Demo.sentence STANDARD true Demo.fresh
              "<PERSON:2bb9dc2b>'s email is <EMAIL:ab0157dd> and phone is (888) 456-7890"
              80
              [mkAudit "555-123-4567" "(888) 456-7890" "PHONE" 95 50 62;
               mkAudit "john@example.com" "<EMAIL:ab0157dd>" "EMAIL" 95 20 36;
               mkAudit "John Doe" "<PERSON:2bb9dc2b>" "PERSON" 90 0 8])
    as [_ Hlen].
  - intros tagger tagged ent [= <-]. unfold Demo.tagger. simpl.
    intros [= <-] Hent. apply list_elem_of_singleton in Hent as ->.
    vm_compute. repeat split; discriminate.
  - intros t m Hm. destruct t; vm_compute in Hm;
      try (by apply elem_of_nil in Hm);
      apply list_elem_of_singleton in Hm as ->;
      vm_compute; repeat split; discriminate.
  - vm_compute. reflexivity.
  - exact Hlen.
Defined.

(** ** Privacy levels *)

Section Levels.
Context `{Capabilities}.

Lemma privacy_configs_le :
  config_le (privacy_configs MINIMAL) (privacy_configs STANDARD)
  ∧ config_le (privacy_configs STANDARD) (privacy_configs STRICT).
Proof.
  split; (split; [|simpl; lia]); intros t; simpl;
    unfold EntityTypeEnum.members; rewrite !list_elem_of_In; simpl; tauto.
Qed.

Lemma ner_loop_length_le c1 c2 ents :
  config_le c1 c2 →
  ∀ acc1 acc2 svc1 svc2,
    (length acc1 ≤ length acc2)%nat →
    (length (ner_loop c1 ents acc1 svc1).1
     ≤ length (ner_loop c2 ents acc2 svc2).1)%nat.
Proof.
  intros [Hsub Hthr].
  induction ents as [|ent rest IH]; intros acc1 acc2 svc1 svc2 Hlen; [done|].
  cbn [ner_loop].
  destruct (EntityTypeEnum.of_value (label_ ent)) as [t|];
    [|repeat case_bool_decide; by apply IH].
  destruct (get_or_create_replacement (ent_text ent) t svc1) as [tok1 svc1'].
  destruct (get_or_create_replacement (ent_text ent) t svc2) as [tok2 svc2'].
  assert (∀ (acc : list SensitiveSpan) x,
            length (acc ++ [x]) = S (length acc)) as Hsnoc.
  { intros acc x. rewrite length_app. simpl. lia. }
  case_bool_decide as Hin1; case_bool_decide as Hin2.
  - destruct (Z.leb_spec (confidence_threshold c1) 90);
      destruct (Z.leb_spec (confidence_threshold c2) 90);
      try lia; apply IH; rewrite ?Hsnoc; lia.
  - exfalso. apply Hin2.
    apply list_elem_of_fmap in Hin1 as (t' & -> & Ht').
    apply list_elem_of_fmap. exists t'. split; [done | by apply Hsub].
  - destruct (Z.leb_spec (confidence_threshold c2) 90);
      apply IH; rewrite ?Hsnoc; lia.
  - by apply IH.
Qed.

Lemma match_loop_length t ms acc svc :
  length (match_loop t ms acc svc).1 = (length acc + length ms)%nat.
Proof.
  destruct (match_loop_spec t ms acc svc) as (new & -> & _ & _ & _ & <-).
  apply length_app.
Qed.

Lemma pattern_loop_length_le c1 c2 s pats :
  config_le c1 c2 →
  ∀ acc1 acc2 svc1 svc2,
    (length acc1 ≤ length acc2)%nat →
    (length (pattern_loop c1 s pats acc1 svc1).1
     ≤ length (pattern_loop c2 s pats acc2 svc2).1)%nat.
Proof.
  intros [Hsub Hthr].
  induction pats as [|t rest IH]; intros acc1 acc2 svc1 svc2 Hlen; [done|].
  cbn [pattern_loop].
  pose proof (match_loop_length t (finditer t s) acc1 svc1) as Hl1.
  pose proof (match_loop_length t (finditer t s) acc2 svc2) as Hl2.
  destruct (match_loop t (finditer t s) acc1 svc1) as [acc1' svc1'].
  destruct (match_loop t (finditer t s) acc2 svc2) as [acc2' svc2'].
  simpl in Hl1, Hl2.
  case_bool_decide as Hin1; case_bool_decide as Hin2.
  - apply IH. lia.
  - exfalso. by apply Hin2, Hsub.
  - apply IH. lia.
  - by apply IH.
Qed.

Lemma collect_entities_count_le l1 l2 s svc1 svc2 :
  config_le (privacy_configs l1) (privacy_configs l2) →
  match (collect_entities s l1 svc1).1, (collect_entities s l2 svc2).1 with
  | Ok a, Ok b => (length a ≤ length b)%nat
  | Raise e1, Raise e2 => e1 = e2
  | _, _ => False
  end.
Proof.
  intros Hle. unfold collect_entities. destruct nlp as [tagger|].
  - destruct (tagger s) as [tagged|e]; [|done].
    pose proof (ner_loop_length_le _ _ tagged Hle [] [] svc1 svc2
                  ltac:(done)) as Hner.
    destruct (ner_loop (privacy_configs l1) tagged [] svc1) as [a1 s1].
    destruct (ner_loop (privacy_configs l2) tagged [] svc2) as [a2 s2].
    pose proof (pattern_loop_length_le _ _ s patterns Hle a1 a2 s1 s2 Hner)
      as Hpat.
    destruct (pattern_loop (privacy_configs l1) s patterns a1 s1).
    by destruct (pattern_loop (privacy_configs l2) s patterns a2 s2).
  - pose proof (pattern_loop_length_le _ _ s patterns Hle [] [] svc1 svc2
                  ltac:(done)) as Hpat.
    destruct (pattern_loop (privacy_configs l1) s patterns [] svc1).
    by destruct (pattern_loop (privacy_configs l2) s patterns [] svc2).
Qed.

End Levels.

(** C7, as the code has it: for the same text, tagger and patterns, the
    number of candidate spans that pass the entity-type and threshold
    filter, that is the spans detected before overlap resolution, under
    STRICT is at least the number under STANDARD, which is at least the
    number under MINIMAL, whatever the state of the vault; if the tagger
    raises it raises under every level. *)
Theorem candidate_count_monotone `{Capabilities} (s : string)
    (svc1 svc2 svc3 : PrivacyService) :
  match (collect_entities s MINIMAL svc1).1,
        (collect_entities s STANDARD svc2).1,
        (collect_entities s STRICT svc3).1 with
  | Ok a, Ok b, Ok c => (length a ≤ length b)%nat ∧ (length b ≤ length c)%nat
  | Raise e1, Raise e2, Raise e3 => e1 = e2 ∧ e2 = e3
  | _, _, _ => False
  end.
Proof.
  destruct privacy_configs_le as [H12 H23].
  pose proof (collect_entities_count_le MINIMAL STANDARD s svc1 svc2 H12) as Ha.
  pose proof (collect_entities_count_le STANDARD STRICT s svc2 svc3 H23) as Hb.
  destruct (collect_entities s MINIMAL svc1).1,
    (collect_entities s STANDARD svc2).1,
    (collect_entities s STRICT svc3).1; done.
Qed.

(** C7 as it is written fails: in ["$55512345675559876543"] the phone
    pattern matches twice and the money pattern, which only STRICT
    enables, matches the whole text; it starts first and displaces both
    phone spans, so STRICT detects one entity where STANDARD and MINIMAL
    detect two. *)
Lemma candidate_count_monotone_counterexample :
  ∃ strict standard minimal,
    (@detect_sensitive_entities Demo.caps_regex_only Demo.digits_run STRICT
       Demo.fresh).1 = Ok strict
    ∧ (@detect_sensitive_entities Demo.caps_regex_only Demo.digits_run
         STANDARD Demo.fresh).1 = Ok standard
    ∧ (@detect_sensitive_entities Demo.caps_regex_only Demo.digits_run
         MINIMAL Demo.fresh).1 = Ok minimal
    ∧ length strict = 1%nat ∧ length standard = 2%nat
    ∧ length minimal = 2%nat
    ∧ ¬ (length strict ≥ length standard)%nat.
Proof.
  eexists _, _, _.
  split; [vm_compute; reflexivity|].
  split; [vm_compute; reflexivity|].
  split; [vm_compute; reflexivity|].
  simpl. repeat split; lia.
Qed.

(** ** The batch endpoints *)

Section Batch.
Context `{Capabilities}.

Lemma batch_loop_spec requests : ∀ results svc,
  ∃ new,
    (Endpoints.batch_loop requests results svc).1 = results ++ new
    ∧ length new = length requests
    ∧ (Endpoints.batch_loop requests results svc).2
      = (Endpoints.batch_loop requests [] svc).2.
Proof.
  induction requests as [|request rest IH]; intros results svc.
  { exists []. simpl. by rewrite app_nil_r. }
  cbn [Endpoints.batch_loop app].
  destruct (Endpoints.batch_item request svc) as [item svc'].
  destruct (IH (results ++ [item]) svc') as (new & Heq & Hlen & Hst).
  destruct (IH [item] svc') as (_ & _ & _ & Hst0).
  exists (item :: new). rewrite Heq, <- app_assoc. split; [done|].
  split; [simpl; by rewrite Hlen | congruence].
Qed.

Lemma batch_loop_app r1 r2 results svc :
  Endpoints.batch_loop (r1 ++ r2) results svc
  = Endpoints.batch_loop r2 (Endpoints.batch_loop r1 results svc).1
      (Endpoints.batch_loop r1 results svc).2.
Proof.
  revert results svc. induction r1 as [|request rest IH]; intros results svc.
  { done. }
  cbn [Endpoints.batch_loop app].
  destruct (Endpoints.batch_item request svc) as [item svc']. apply IH.
Qed.

Lemma batch_nth requests svc i request :
  requests !! i = Some request →
  length (Endpoints.batch_anonymize_text requests svc).1 = length requests
  ∧ (Endpoints.batch_anonymize_text requests svc).1 !! i
    = Some (Endpoints.batch_item request
              (Endpoints.batch_anonymize_text (take i requests) svc).2).1.
Proof.
  intros Hi. unfold Endpoints.batch_anonymize_text. split.
  { destruct (batch_loop_spec requests [] svc) as (new & -> & <- & _). done. }
  rewrite <- (take_drop_middle requests i request Hi) at 1.
  rewrite batch_loop_app.
  destruct (batch_loop_spec (take i requests) [] svc) as (pre & Hpre & Hlen & _).
  rewrite Hpre. cbn [Endpoints.batch_loop app].
  destruct (Endpoints.batch_item request _) as [item svc'].
  destruct (batch_loop_spec (drop (S i) requests) (pre ++ [item]) svc')
    as (post & -> & _).
  rewrite <- app_assoc. simpl.
  assert (length pre = i) as <-.
  { rewrite Hlen, length_take. apply lookup_lt_Some in Hi. lia. }
  by rewrite list_lookup_middle.
Qed.

Lemma main_batch_loop_spec texts level : ∀ results svc,
  ∃ new,
    (Main.batch_loop texts level results svc).1 = results ++ new
    ∧ length new = length texts
    ∧ (Main.batch_loop texts level results svc).2
      = (Main.batch_loop texts level [] svc).2.
Proof.
  induction texts as [|s rest IH]; intros results svc.
  { exists []. simpl. by rewrite app_nil_r. }
  cbn [Main.batch_loop app].
  destruct (Main.batch_item s level svc) as [item svc'].
  destruct (IH (results ++ [item]) svc') as (new & Heq & Hlen & Hst).
  destruct (IH [item] svc') as (_ & _ & _ & Hst0).
  exists (item :: new). rewrite Heq, <- app_assoc. split; [done|].
  split; [simpl; by rewrite Hlen | congruence].
Qed.

Lemma main_batch_loop_app t1 t2 level results svc :
  Main.batch_loop (t1 ++ t2) level results svc
  = Main.batch_loop t2 level (Main.batch_loop t1 level results svc).1
      (Main.batch_loop t1 level results svc).2.
Proof.
  revert results svc. induction t1 as [|s rest IH]; intros results svc.
  { done. }
  cbn [Main.batch_loop app].
  destruct (Main.batch_item s level svc) as [item svc']. apply IH.
Qed.

Lemma main_batch_nth texts level svc i s :
  texts !! i = Some s →
  ∃ results,
    (Main.batch_anonymize_text texts level svc).1 = HTTP200 results
    ∧ length results = length texts
    ∧ results !! i
      = Some (Main.batch_item s level
                (Main.batch_loop (take i texts) level [] svc).2).1.
Proof.
  intros Hi. unfold Main.batch_anonymize_text.
  destruct texts as [|s0 texts0] eqn:Htexts; [done|]. rewrite <- Htexts in *.
  clear Htexts.
  destruct (Main.batch_loop texts level [] svc) as [results svc''] eqn:Hloop.
  exists results. split; [done|].
  assert (results = (Main.batch_loop texts level [] svc).1) as ->
    by by rewrite Hloop.
  clear Hloop. split.
  { destruct (main_batch_loop_spec texts level [] svc) as (new & -> & <- & _).
    done. }
  rewrite <- (take_drop_middle texts i s Hi) at 1.
  rewrite main_batch_loop_app.
  destruct (main_batch_loop_spec (take i texts) level [] svc)
    as (pre & Hpre & Hlen & _).
  rewrite Hpre. cbn [Main.batch_loop app].
  destruct (Main.batch_item s level _) as [item svc'].
  destruct (main_batch_loop_spec (drop (S i) texts) level (pre ++ [item]) svc')
    as (post & -> & _).
  rewrite <- app_assoc. simpl.
  assert (length pre = i) as <-.
  { rewrite Hlen, length_take. apply lookup_lt_Some in Hi. lia. }
  by rewrite list_lookup_middle.
Qed.

End Batch.

Lemma batch_item_result `{Capabilities} request svc :
  (Endpoints.batch_item request svc).1
  = match (sanitize_text (req_text request) (req_privacy_level request)
             (req_preserve_format request) svc).1 with
    | Ok (sanitized, score, found) =>
        ItemResponse
          (mkResponse sanitized score found (req_privacy_level request))
    | Raise e =>
        ItemError ("Failed to process: " +:+ exc_str e) (req_text request)
    end.
Proof.
  unfold Endpoints.batch_item.
  by destruct (sanitize_text _ _ _ _) as [[[[sanitized score] found]|e] svc'].
Qed.

Lemma main_batch_item_result `{Capabilities} s level svc :
  (Main.batch_item s level svc).1
  = match (sanitize_text_str s level true svc).1 with
    | Ok (sanitized, score, found) =>
        mkMainItem sanitized score found level None
    | Raise e => mkMainItem s 0 [] level (Some (exc_str e))
    end.
Proof.
  unfold Main.batch_item.
  by destruct (sanitize_text_str _ _ _ _)
    as [[[[sanitized score] found]|e] svc'].
Qed.

(** C9: both batch endpoints return one result per text, and the result
    at each position is decided by the sanitisation of that text alone,
    run on the service as the texts before it left it: when it raises,
    the item holds the original text with the error message and no
    entities; otherwise it holds the sanitised result.  A failure at one
    position therefore leaves the results at all other positions as they
    are. *)
Theorem batch_isolation `{Capabilities} (requests : list PrivacyRequest)
    (texts : list string) (level : string) (svc : PrivacyService) :
  (length (Endpoints.batch_anonymize_text requests svc).1 = length requests
   ∧ ∀ i request,
       requests !! i = Some request →
       let before :=
         (Endpoints.batch_anonymize_text (take i requests) svc).2 in
       (Endpoints.batch_anonymize_text requests svc).1 !! i
       = Some
           match (sanitize_text (req_text request) (req_privacy_level request)
                    (req_preserve_format request) before).1 with
           | Ok (sanitized, score, found) =>
               ItemResponse
                 (mkResponse sanitized score found (req_privacy_level request))
           | Raise e =>
               ItemError ("Failed to process: " +:+ exc_str e)
                 (req_text request)
           end)
  ∧ (∀ i s,
       texts !! i = Some s →
       ∃ results,
         (Main.batch_anonymize_text texts level svc).1 = HTTP200 results
         ∧ length results = length texts
         ∧ let before := (Main.batch_loop (take i texts) level [] svc).2 in
           results !! i
           = Some
               match (sanitize_text_str s level true before).1 with
               | Ok (sanitized, score, found) =>
                   mkMainItem sanitized score found level None
               | Raise e => mkMainItem s 0 [] level (Some (exc_str e))
               end).
Proof.
  split; [split|].
  - unfold Endpoints.batch_anonymize_text.
    by destruct (batch_loop_spec requests [] svc) as (new & -> & <- & _).
  - intros i request Hi. cbv zeta.
    rewrite <- batch_item_result. by apply batch_nth.
  - intros i s Hi.
    destruct (main_batch_nth texts level svc i s Hi)
      as (results & Heq & Hlen & Hnth).
    exists results. split; [done|]. split; [done|]. cbv zeta.
    by rewrite <- main_batch_item_result.
Qed.

Lemma batch_isolation_witness :
  length (@Endpoints.batch_anonymize_text Demo.caps Demo.batch_requests
            Demo.fresh).1 = 5%nat
  ∧ (@Endpoints.batch_anonymize_text Demo.caps Demo.batch_requests
       Demo.fresh).1 !! 2%nat
    = Some (ItemError "Failed to process: [E088] Text exceeds maximum length"
              Demo.long_text)
  ∧ ∃ results,
      (@Main.batch_anonymize_text Demo.caps Demo.batch_texts "standard"
         Demo.fresh).1 = HTTP200 results
      ∧ results !! 2%nat
        = Some (mkMainItem Demo.long_text 0 [] "standard"
                  (Some "[E088] Text exceeds maximum length"))
      ∧ results !! 3%nat
        = Some (mkMainItem "$(888) 456-7890(888) 210-9876" 70
                  [mkAudit "5559876543" "(888) 210-9876" "PHONE" 95 11 21;
                   mkAudit "5551234567" "(888) 456-7890" "PHONE" 95 1 11]
                  "standard" None).
Proof.
  destruct (@batch_isolation Demo.caps Demo.batch_requests Demo.batch_texts
              "standard" Demo.fresh) as [[Hlen Hitem] Hmain].
  split; [exact Hlen|]. split.
  - rewrite (Hitem 2%nat (mkRequest Demo.long_text STANDARD true));
      [|reflexivity].
    vm_compute. reflexivity.
  - destruct (Hmain 2%nat Demo.long_text) as (results & Heq & _ & H2);
      [reflexivity|].
    destruct (Hmain 3%nat Demo.digits_run) as (results' & Heq' & _ & H3);
      [reflexivity|].
    rewrite Heq in Heq'. injection Heq' as <-.
    exists results. split; [done|]. split.
    + rewrite H2. vm_compute. reflexivity.
    + rewrite H3. vm_compute. reflexivity.
Defined.

Lemma sanitize_deterministic_witness :
  (@sanitize_text Demo.caps Demo.sentence STANDARD false
     (@run_calls Demo.caps
        [CallDetect Demo.digits_run STRICT; CallSanitize "hello" MINIMAL true]
        (@sanitize_text Demo.caps Demo.sentence STANDARD false Demo.fresh).2)).1
  = Ok ("<PERSON:2bb9dc2b>'s email is <EMAIL:ab0157dd> and phone is <PHONE:531b2900>",
        80,
        [mkAudit "555-123-4567" "<PHONE:531b2900>" "PHONE" 95 50 62;
         mkAudit "john@example.com" "<EMAIL:ab0157dd>" "EMAIL" 95 20 36;
         mkAudit "John Doe" "<PERSON:2bb9dc2b>" "PERSON" 90 0 8]).
Proof.
  destruct (@sanitize_deterministic Demo.caps Demo.sentence STANDARD false
              Demo.fresh
              [CallDetect Demo.digits_run STRICT;
               CallSanitize "hello" MINIMAL true]) as (Hsame & _ & _).
  rewrite Hsame. vm_compute. reflexivity.
Defined.

(** * Further properties *)

(** ** The resolver: what it keeps *)

Section ResolverMore.

Lemma StronglySorted_sublist {A} (R : A → A → Prop) (l1 l2 : list A) :
  l1 `sublist_of` l2 → StronglySorted R l2 → StronglySorted R l1.
Proof.
  induction 1 as [|x l1 l2 Hsub IH|x l1 l2 Hsub IH]; intros Hs; [done|..].
  - apply StronglySorted_inv in Hs as [Hs Hx]. constructor; [by apply IH|].
    rewrite Forall_forall in *. intros y Hy. apply Hx.
    by eapply elem_of_sublist.
  - apply StronglySorted_inv in Hs as [Hs _]. by apply IH.
Qed.

Lemma resolver_loop_sublist ents filtered :
  ∃ kept, resolver_loop ents filtered = filtered ++ kept
          ∧ kept `sublist_of` ents.
Proof.
  revert filtered.
  induction ents as [|e rest IH]; intros filtered; simpl.
  - exists []. by rewrite app_nil_r.
  - destruct (existsb (overlaps e) filtered).
    + destruct (IH filtered) as (kept & -> & Hsub).
      exists kept. split; [done | by apply sublist_cons].
    + destruct (IH (filtered ++ [e])) as (kept & -> & Hsub).
      exists (e :: kept). rewrite <- app_assoc. split; [done|].
      by apply sublist_skip.
Qed.

Lemma stable_sort_sorted_id {A} (ltb : A → A → bool) (l : list A) :
  StronglySorted (not_after ltb) l → stable_sort ltb l = l.
Proof.
  induction 1 as [|x l Hl IH Hx]; simpl; [done|]. rewrite IH.
  destruct l as [|y l]; [done|]. simpl.
  apply Forall_cons in Hx as [Hxy _]. unfold not_after in Hxy.
  by rewrite Hxy.
Qed.

Lemma pairwise_disjoint_cons x l :
  pairwise_disjoint (x :: l)
  ↔ (∀ y, y ∈ l → ¬ span_overlap x y) ∧ pairwise_disjoint l.
Proof.
  split.
  - intros Hd. split.
    + intros y [j Hj]%list_elem_of_lookup_1.
      apply (Hd 0%nat (S j)); [lia | done | done].
    + intros i j a b Hij Hi Hj. apply (Hd (S i) (S j)); [lia | done..].
  - intros [Hx Hl] i j a b Hij Hi Hj.
    destruct j as [|j]; [lia|]. destruct i as [|i].
    + injection Hi as <-. apply Hx. by eapply list_elem_of_lookup_2.
    + apply (Hl i j); [lia | done..].
Qed.

Lemma pairwise_disjoint_perm l l' :
  l ≡ₚ l' → pairwise_disjoint l → pairwise_disjoint l'.
Proof.
  induction 1 as [|x l l' Hp IH|x y l|l l' l'' Hp1 IH1 Hp2 IH2]; [done|..].
  - rewrite !pairwise_disjoint_cons. intros [Hx Hl]. split; [|by apply IH].
    intros y Hy. apply Hx. by rewrite Hp.
  - rewrite !pairwise_disjoint_cons. intros (Hy & Hx & Hl).
    split; [|split; [|done]].
    + intros z [-> | Hz]%elem_of_cons; [|by apply Hx].
      intros Hov. eapply Hy; [by left | by apply span_overlap_sym].
    + intros z Hz. apply Hy. by right.
  - auto.
Qed.

(** On a list without overlaps the loop keeps everything. *)
Lemma resolver_loop_disjoint_id ents : ∀ filtered,
  pairwise_disjoint (filtered ++ ents) →
  resolver_loop ents filtered = filtered ++ ents.
Proof.
  induction ents as [|e rest IH]; intros filtered Hd; simpl.
  - by rewrite app_nil_r.
  - assert (existsb (overlaps e) filtered = false) as ->.
    { destruct (existsb (overlaps e) filtered) eqn:Hex; [|done].
      apply existsb_overlaps_true in Hex as (y & Hy & Hov).
      apply list_elem_of_lookup_1 in Hy as [i Hi]. exfalso.
      apply (Hd i (length filtered) y e).
      - by apply lookup_lt_Some in Hi.
      - by rewrite lookup_app_l by by apply lookup_lt_Some in Hi.
      - by rewrite list_lookup_middle.
      - by apply span_overlap_sym. }
    rewrite IH; rewrite <- app_assoc; done.
Qed.

End ResolverMore.

(** X1: every span the resolver retains is one of the candidates, and the
    result lists the retained spans in the order of the sort: ascending
    start offset and, at equal start, descending confidence.  The result
    is never longer than the input. *)
Theorem resolver_keeps_sorted_candidates (ents : list SensitiveSpan) :
  _remove_overlapping_entities ents
    `sublist_of` stable_sort resolver_ltb ents
  ∧ (∀ x, x ∈ _remove_overlapping_entities ents → x ∈ ents)
  ∧ StronglySorted
      (λ x y, start x < start y
              ∨ (start x = start y ∧ confidence y ≤ confidence x))
      (_remove_overlapping_entities ents)
  ∧ (length (_remove_overlapping_entities ents) ≤ length ents)%nat.
Proof.
  rewrite remove_overlapping_unfold.
  destruct (resolver_loop_sublist (stable_sort resolver_ltb ents) [])
    as (kept & -> & Hsub).
  simpl. split; [done|]. split; [|split].
  - intros x Hx. apply (stable_sort_elem_of resolver_ltb).
    by eapply elem_of_sublist.
  - eapply StronglySorted_sublist; [exact Hsub | apply resolver_sort_order].
  - rewrite <- (stable_sort_length resolver_ltb ents). by apply sublist_length.
Qed.

(** X2: the greedy walk is maximal: every candidate is either retained,
    or overlaps a retained span that does not come after it in the order
    of the sort (it starts no later and, at equal start, has no lower
    confidence). *)
Theorem resolver_maximal (ents : list SensitiveSpan) (x : SensitiveSpan) :
  x ∈ ents →
  x ∈ _remove_overlapping_entities ents
  ∨ ∃ y, y ∈ _remove_overlapping_entities ents
         ∧ span_overlap x y
         ∧ (start y < start x
            ∨ (start y = start x ∧ confidence x ≤ confidence y)).
Proof.
  intros Hx. rewrite remove_overlapping_unfold.
  apply (stable_sort_elem_of resolver_ltb) in Hx.
  apply list_elem_of_split in Hx as (l1 & l2 & Heq). rewrite Heq.
  destruct (resolver_loop_at l1 x l2 []) as [Hin | (y & Hy & Hov)];
    [by left|].
  right. exists y. split; [by apply resolver_loop_keeps|]. split; [done|].
  assert (y ∈ l1) as Hyl1.
  { apply resolver_loop_subset in Hy as [Hy | Hy]; [|done].
    by apply elem_of_nil in Hy. }
  pose proof (resolver_before_not_after ents l1 x l2 y Heq Hyl1) as Hna.
  pose proof (stable_sort_before resolver_ltb resolver_ltb_asym
                (λ a b c, resolver_ltb_negtrans a b c) ents l1 x l2 y Heq Hyl1)
    as Hyx.
  unfold not_after in Hyx. apply resolver_ltb_false in Hyx.
  unfold sorts_after in *. lia.
Qed.

Lemma resolver_maximal_witness :
  Demo.phone_regex
    ∈ _remove_overlapping_entities
        [Demo.phone_regex; Demo.money_regex; Demo.money_model]
  ∨ ∃ y, y ∈ _remove_overlapping_entities
               [Demo.phone_regex; Demo.money_regex; Demo.money_model]
         ∧ span_overlap Demo.phone_regex y
         ∧ (start y < start Demo.phone_regex
            ∨ (start y = start Demo.phone_regex
               ∧ confidence Demo.phone_regex ≤ confidence y)).
Proof.
  apply (resolver_maximal
           [Demo.phone_regex; Demo.money_regex; Demo.money_model]).
  by left.
Defined.

(** X3: resolving is idempotent: the result has no overlaps and is in
    the order of the sort, so resolving it again returns it unchanged. *)
Theorem resolver_idempotent (ents : list SensitiveSpan) :
  _remove_overlapping_entities (_remove_overlapping_entities ents)
  = _remove_overlapping_entities ents.
Proof.
  rewrite (remove_overlapping_unfold (_remove_overlapping_entities ents)).
  rewrite stable_sort_sorted_id.
  - apply (resolver_loop_disjoint_id _ []), remove_overlapping_disjoint.
  - rewrite remove_overlapping_unfold.
    destruct (resolver_loop_sublist (stable_sort resolver_ltb ents) [])
      as (kept & -> & Hsub).
    eapply StronglySorted_sublist; [exact Hsub|].
    apply stable_sort_sorted;
      [apply resolver_ltb_asym | intros a b c; apply resolver_ltb_negtrans].
Qed.

(** X4: a non-empty candidate list never resolves to nothing: the first
    span of the result is a candidate that no other candidate precedes in
    the order of the sort. *)
Theorem resolver_first_kept (ents : list SensitiveSpan) :
  ents ≠ [] →
  ∃ x more,
    _remove_overlapping_entities ents = x :: more
    ∧ x ∈ ents
    ∧ ∀ y, y ∈ ents →
           start x < start y
           ∨ (start x = start y ∧ confidence y ≤ confidence x).
Proof.
  intros Hne. rewrite remove_overlapping_unfold.
  pose proof (resolver_sort_order ents) as Hs.
  pose proof (stable_sort_perm resolver_ltb ents) as Hp.
  destruct (stable_sort resolver_ltb ents) as [|x rest] eqn:Hsort.
  { apply Permutation_nil_l in Hp. congruence. }
  simpl. destruct (resolver_loop_prefix rest [x]) as [more ->].
  exists x, more. split; [done|]. split.
  - rewrite <- Hp. by left.
  - intros y Hy. rewrite <- Hp in Hy.
    apply StronglySorted_inv in Hs as [_ Hall]. rewrite Forall_forall in Hall.
    apply elem_of_cons in Hy as [-> | Hy]; [|by apply Hall].
    right. split; [done | lia].
Qed.

Lemma resolver_first_kept_witness :
  ∃ x more,
    _remove_overlapping_entities Demo.sample_spans = x :: more
    ∧ x ∈ Demo.sample_spans
    ∧ ∀ y, y ∈ Demo.sample_spans →
           start x < start y
           ∨ (start x = start y ∧ confidence y ≤ confidence x).
Proof. apply (resolver_first_kept Demo.sample_spans). discriminate. Defined.

(** X5: when no two candidates overlap, nothing is discarded: the result
    is the sorted candidate list, a permutation of the input. *)
Theorem resolver_disjoint_keeps_all (ents : list SensitiveSpan) :
  pairwise_disjoint ents →
  _remove_overlapping_entities ents = stable_sort resolver_ltb ents
  ∧ _remove_overlapping_entities ents ≡ₚ ents.
Proof.
  intros Hd. rewrite remove_overlapping_unfold.
  rewrite (resolver_loop_disjoint_id _ []).
  - split; [done | apply stable_sort_perm].
  - simpl. eapply pairwise_disjoint_perm; [|exact Hd].
    symmetry. apply stable_sort_perm.
Qed.

Lemma resolver_disjoint_keeps_all_witness :
  _remove_overlapping_entities
    [mkSpan "john@example.com" 20 36 EMAIL 95 "<EMAIL:ab0157dd>";
     mkSpan "John Doe" 0 8 PERSON 90 "<PERSON:2bb9dc2b>"]
  ≡ₚ [mkSpan "john@example.com" 20 36 EMAIL 95 "<EMAIL:ab0157dd>";
      mkSpan "John Doe" 0 8 PERSON 90 "<PERSON:2bb9dc2b>"].
Proof.
  apply (resolver_disjoint_keeps_all
           [mkSpan "john@example.com" 20 36 EMAIL 95 "<EMAIL:ab0157dd>";
            mkSpan "John Doe" 0 8 PERSON 90 "<PERSON:2bb9dc2b>"]).
  intros i j a b Hij Hi Hj.
  destruct i as [|[|i]]; destruct j as [|[|j]]; try lia;
    simpl in Hi, Hj; try discriminate.
  injection Hi as <-. injection Hj as <-.
  unfold span_overlap. simpl. lia.
Defined.

(** ** The vault: keys, repeated calls, restarts *)

Section VaultMore.
Context `{Capabilities}.

Lemma vault_key_inj v t v' t' :
  vault_key v t = vault_key v' t' ↔ t = t' ∧ PyStr.lower v = PyStr.lower v'.
Proof.
  split.
  - intros Heq. pose proof (vault_key_type _ _ _ _ Heq) as ->.
    split; [done|]. unfold vault_key in Heq.
    by do 2 apply (inj (String.app _)) in Heq.
  - intros [-> Hl]. unfold vault_key. by rewrite Hl.
Qed.

Lemma token_type svc v t v' t' :
  generate_deterministic_token svc v t = generate_deterministic_token svc v' t' →
  t = t'.
Proof.
  unfold generate_deterministic_token. intros Heq.
  destruct t, t'; try reflexivity; exfalso; cbv in Heq; discriminate Heq.
Qed.

Lemma init_in_sync sk env hex file svc :
  init sk env hex file = Ok svc → file_in_sync svc.
Proof.
  unfold init, load_token_map. simpl.
  destruct file; intros [= <-]; unfold file_in_sync; simpl; auto.
Qed.

Lemma vault_extends_in_sync svc svc' :
  vault_extends svc svc' → file_in_sync svc → file_in_sync svc'.
Proof. intros (_ & _ & [-> | Hf]) Hs; [done | by left]. Qed.

Lemma load_in_sync svc :
  file_in_sync svc →
  load_token_map svc
  = Ok (mkService (secret_key svc) (token_map svc) (token_file svc)).
Proof.
  unfold load_token_map. intros [Hf | [Hf Hm]]; rewrite Hf; [done|].
  by rewrite Hm.
Qed.

Lemma get_or_create_in_step v t svc svc2 :
  in_step svc svc2 →
  (get_or_create_replacement v t svc).1 = (get_or_create_replacement v t svc2).1
  ∧ in_step (get_or_create_replacement v t svc).2
            (get_or_create_replacement v t svc2).2.
Proof.
  intros (Hk & Hc & Hc2).
  destruct (get_or_create_consistent v t svc Hc) as [Ht Hc'].
  destruct (get_or_create_consistent v t svc2 Hc2) as [Ht2 Hc2'].
  pose proof (get_or_create_extends v t svc) as [(Hk1 & _) _].
  pose proof (get_or_create_extends v t svc2) as [(Hk2 & _) _].
  split.
  - rewrite Ht, Ht2. by apply generate_token_key.
  - split; [congruence | done].
Qed.

Lemma ner_loop_in_step config ents : ∀ acc svc svc2,
  in_step svc svc2 →
  (ner_loop config ents acc svc).1 = (ner_loop config ents acc svc2).1
  ∧ in_step (ner_loop config ents acc svc).2 (ner_loop config ents acc svc2).2.
Proof.
  induction ents as [|ent rest IH]; intros acc svc svc2 Hs; [done|].
  cbn [ner_loop]. destruct (bool_decide _); [|by apply IH].
  destruct (EntityTypeEnum.of_value _) as [t|]; [|by apply IH].
  destruct (_ <=? _); [|by apply IH].
  destruct (get_or_create_in_step (ent_text ent) t svc svc2 Hs) as [Ht Hs'].
  destruct (get_or_create_replacement (ent_text ent) t svc) as [tok svc1].
  destruct (get_or_create_replacement (ent_text ent) t svc2) as [tok2 svc2'].
  simpl in Ht, Hs'. subst tok2. by apply IH.
Qed.

Lemma match_loop_in_step t ms : ∀ acc svc svc2,
  in_step svc svc2 →
  (match_loop t ms acc svc).1 = (match_loop t ms acc svc2).1
  ∧ in_step (match_loop t ms acc svc).2 (match_loop t ms acc svc2).2.
Proof.
  induction ms as [|m rest IH]; intros acc svc svc2 Hs; [done|].
  cbn [match_loop].
  destruct (get_or_create_in_step (m_group m) t svc svc2 Hs) as [Ht Hs'].
  destruct (get_or_create_replacement (m_group m) t svc) as [tok svc1].
  destruct (get_or_create_replacement (m_group m) t svc2) as [tok2 svc2'].
  simpl in Ht, Hs'. subst tok2. by apply IH.
Qed.

Lemma pattern_loop_in_step config s pats : ∀ acc svc svc2,
  in_step svc svc2 →
  (pattern_loop config s pats acc svc).1
  = (pattern_loop config s pats acc svc2).1
  ∧ in_step (pattern_loop config s pats acc svc).2
            (pattern_loop config s pats acc svc2).2.
Proof.
  induction pats as [|t rest IH]; intros acc svc svc2 Hs; [done|].
  cbn [pattern_loop]. destruct (bool_decide _); [|by apply IH].
  destruct (match_loop_in_step t (finditer t s) acc svc svc2 Hs) as [Ha Hs'].
  destruct (match_loop t (finditer t s) acc svc) as [acc1 svc1].
  destruct (match_loop t (finditer t s) acc svc2) as [acc2 svc2'].
  simpl in Ha, Hs'. subst acc2. by apply IH.
Qed.

Lemma collect_entities_in_step s l svc svc2 :
  in_step svc svc2 →
  (collect_entities s l svc).1 = (collect_entities s l svc2).1
  ∧ in_step (collect_entities s l svc).2 (collect_entities s l svc2).2.
Proof.
  intros Hs. unfold collect_entities. destruct nlp as [tagger|].
  - destruct (tagger s) as [tagged|e]; [|done].
    destruct (ner_loop_in_step (privacy_configs l) tagged [] svc svc2 Hs)
      as [Ha Hs'].
    destruct (ner_loop (privacy_configs l) tagged [] svc) as [acc1 svc1].
    destruct (ner_loop (privacy_configs l) tagged [] svc2) as [acc2 svc2'].
    simpl in Ha, Hs'. subst acc2.
    destruct (pattern_loop_in_step (privacy_configs l) s patterns acc1
                svc1 svc2' Hs') as [Hb Hs''].
    destruct (pattern_loop (privacy_configs l) s patterns acc1 svc1).
    destruct (pattern_loop (privacy_configs l) s patterns acc1 svc2').
    simpl in *. by subst.
  - destruct (pattern_loop_in_step (privacy_configs l) s patterns []
                svc svc2 Hs) as [Hb Hs''].
    destruct (pattern_loop (privacy_configs l) s patterns [] svc).
    destruct (pattern_loop (privacy_configs l) s patterns [] svc2).
    simpl in *. by subst.
Qed.

Lemma sanitize_in_step s l pf svc svc2 :
  in_step svc svc2 →
  (sanitize_text s l pf svc).1 = (sanitize_text s l pf svc2).1
  ∧ in_step (sanitize_text s l pf svc).2 (sanitize_text s l pf svc2).2.
Proof.
  intros Hs. rewrite !sanitize_state, !detect_state.
  destruct (collect_entities_in_step s l svc svc2 Hs) as [Ha Hs'].
  split; [|done].
  unfold sanitize_text.
  pose proof (detect_result s l svc) as Hr1.
  pose proof (detect_result s l svc2) as Hr2.
  pose proof (detect_state s l svc) as Hs1.
  pose proof (detect_state s l svc2) as Hs2.
  destruct (detect_sensitive_entities s l svc) as [r1 svc1].
  destruct (detect_sensitive_entities s l svc2) as [r2 svc2'].
  simpl in *. subst. rewrite <- Ha.
  destruct (collect_entities s l svc).1 as [cands|e]; [|done].
  rewrite (replace_loop_key (collect_entities s l svc).2
             (collect_entities s l svc2).2)
    by (symmetry; apply Hs').
  by destruct (replace_loop _ _ _ _ _).
Qed.

Lemma run_call_vault_consistent c svc :
  vault_consistent svc → vault_consistent (run_call c svc).
Proof.
  intros Hc. assert (in_step svc svc) as Hs by done.
  destruct c as [s l pf | s l]; simpl.
  - by destruct (sanitize_in_step s l pf svc svc Hs) as [_ (_ & ? & _)].
  - rewrite detect_state.
    by destruct (collect_entities_in_step s l svc svc Hs) as [_ (_ & ? & _)].
Qed.

Lemma run_calls_vault_consistent cs svc :
  vault_consistent svc → vault_consistent (run_calls cs svc).
Proof.
  revert svc. induction cs as [|c cs IH]; intros svc Hc; simpl; [done|].
  by apply IH, run_call_vault_consistent.
Qed.

End VaultMore.

(** X6: two values share a vault key exactly when they have the same
    entity type and are equal up to letter case; and tokens of different
    entity types are never equal. *)
Theorem vault_key_collision `{Capabilities} (svc : PrivacyService)
    (v v' : string) (t t' : EntityType) :
  (vault_key v t = vault_key v' t'
   ↔ t = t' ∧ PyStr.lower v = PyStr.lower v')
  ∧ (generate_deterministic_token svc v t
     = generate_deterministic_token svc v' t' → t = t').
Proof. split; [apply vault_key_inj | apply token_type]. Qed.

(** X7: asking again for the replacement of a value, in any letter case,
    returns the token of the first call and changes neither the map nor
    the file; a call adds at most one entry and never alters an entry
    that was there. *)
Theorem get_or_create_idempotent `{Capabilities} (svc : PrivacyService)
    (v v' : string) (t : EntityType) :
  PyStr.lower v = PyStr.lower v' →
  let first := get_or_create_replacement v t svc in
  get_or_create_replacement v' t first.2 = (first.1, first.2)
  ∧ (size (token_map first.2) ≤ S (size (token_map svc)))%nat
  ∧ ∀ k x, token_map svc !! k = Some x → token_map first.2 !! k = Some x.
Proof.
  intros Hl. cbv zeta.
  pose proof (get_or_create_extends v t svc) as [(_ & Hsub & _) Hrec].
  split; [|split].
  - apply get_or_create_present.
    assert (vault_key v' t = vault_key v t) as ->
      by (unfold vault_key; by rewrite Hl).
    exact Hrec.
  - destruct (token_map svc !! vault_key v t) as [tok|] eqn:Hk.
    + rewrite (get_or_create_present _ _ _ _ Hk). simpl. lia.
    + rewrite (get_or_create_new _ _ _ Hk). simpl.
      by rewrite map_size_insert_None.
  - intros k x Hx. by eapply lookup_weaken.
Qed.

Lemma get_or_create_idempotent_witness :
  @get_or_create_replacement Demo.caps "JOHN@EXAMPLE.COM" EMAIL
    (@get_or_create_replacement Demo.caps "john@example.com" EMAIL
       Demo.fresh).2
  = ("<EMAIL:ab0157dd>",
     (@get_or_create_replacement Demo.caps "john@example.com" EMAIL
        Demo.fresh).2).
Proof.
  destruct (@get_or_create_idempotent Demo.caps Demo.fresh
              "john@example.com" "JOHN@EXAMPLE.COM" EMAIL) as (Hsame & _ & _).
  - reflexivity.
  - rewrite Hsame. reflexivity.
Defined.

(** X8: the token file follows the map.  After construction and any
    sequence of calls, a service constructed anew from the file, under
    whatever key, starts with exactly the map the running service has. *)
Theorem restart_restores_vault `{Capabilities}
    (sk env : option string) (hex : string) (file : TokenFile)
    (svc : PrivacyService) (cs : list Call)
    (sk' env' : option string) (hex' : string) :
  init sk env hex file = Ok svc →
  ∃ svc',
    init sk' env' hex' (token_file (run_calls cs svc)) = Ok svc'
    ∧ token_map svc' = token_map (run_calls cs svc)
    ∧ token_file svc' = token_file (run_calls cs svc).
Proof.
  intros Hinit.
  assert (file_in_sync (run_calls cs svc)) as Hsync.
  { eapply vault_extends_in_sync; [apply run_calls_extends|].
    by eapply init_in_sync. }
  unfold init, load_token_map. simpl.
  destruct Hsync as [Hf | [Hf Hm]]; rewrite Hf.
  - eexists. split; [done|]. by simpl.
  - eexists. split; [done|]. simpl. by rewrite Hm.
Qed.

Lemma restart_restores_vault_witness :
  ∃ svc',
    init (Some "demo-key") None "unused"
      (token_file
         (@run_calls Demo.caps [CallSanitize Demo.sentence STANDARD false]
            Demo.fresh))
    = Ok svc'
    ∧ token_map svc'
      = token_map
          (@run_calls Demo.caps [CallSanitize Demo.sentence STANDARD false]
             Demo.fresh).
Proof.
  destruct (@restart_restores_vault Demo.caps (Some "demo-key") None "unused"
              FileNotFound Demo.fresh
              [CallSanitize Demo.sentence STANDARD false]
              (Some "demo-key") None "unused") as (svc' & Hinit & Hmap & _).
  - reflexivity.
  - by exists svc'.
Defined.



(** X10: a service constructed without a token file keeps the invariant
    that every stored token is the derived token, through any sequence
    of calls. *)
Theorem fresh_vault_stays_consistent `{Capabilities}
    (sk env : option string) (hex : string) (svc : PrivacyService)
    (cs : list Call) :
  init sk env hex FileNotFound = Ok svc →
  vault_consistent (run_calls cs svc).
Proof.
  unfold init, load_token_map. simpl. intros [= <-].
  apply run_calls_vault_consistent, vault_consistent_empty.
Qed.

Lemma fresh_vault_stays_consistent_witness :
  @vault_consistent Demo.caps
    (@run_calls Demo.caps
       [CallDetect Demo.digits_run STRICT;
        CallSanitize Demo.sentence STANDARD true] Demo.fresh).
Proof.
  apply (@fresh_vault_stays_consistent Demo.caps (Some "demo-key") None "").
  reflexivity.
Defined.

(** X11: the vault is append-only.  No sequence of sanitising and
    detecting calls changes the secret key, removes an entry or changes
    the token of an entry, so the total [get_stats] reports never
    decreases. *)
Theorem vault_append_only `{Capabilities} (svc : PrivacyService)
    (cs : list Call) :
  secret_key (run_calls cs svc) = secret_key svc
  ∧ (∀ k x, token_map svc !! k = Some x →
            token_map (run_calls cs svc) !! k = Some x)
  ∧ (total_tokens_mapped (get_stats svc)
     ≤ total_tokens_mapped (get_stats (run_calls cs svc)))%nat.
Proof.
  destruct (run_calls_extends cs svc) as (Hk & Hsub & _).
  split; [done|]. split.
  - intros k x Hx. by eapply lookup_weaken.
  - simpl. by apply map_subseteq_size.
Qed.

(** ** The cipher: what it depends on *)

Section CipherMore.
Import PyStr PyStrFacts.




End CipherMore.

(** X12: when the digit count fits the entity type, the result of the
    cipher is determined by the digits of the value alone: neither the
    secret key, nor the vault, nor the separators of the input enter. *)
Theorem fpe_depends_on_digits_only (caps1 caps2 : Capabilities)
    (svc1 svc2 : PrivacyService) (s s' : string) (t : EntityType) :
  cipher_applies t s = true →
  digits_of s = digits_of s' →
  @apply_format_preserving_encryption caps1 svc1 s t
  = @apply_format_preserving_encryption caps2 svc2 s' t.
Proof.
  unfold cipher_applies, apply_format_preserving_encryption.
  intros Hfit Heq. rewrite <- Heq.
  destruct t; try discriminate Hfit; by rewrite Hfit.
Qed.

Lemma fpe_depends_on_digits_only_witness :
  @apply_format_preserving_encryption Demo.caps Demo.fresh
    "555-123-4567" PHONE
  = @apply_format_preserving_encryption Demo.caps_regex_only
      (mkService "another-key" ∅ FileNotFound) "(555) 123 4567" PHONE.
Proof.
  apply fpe_depends_on_digits_only; reflexivity.
Defined.



(** ** Detection: what can be reported *)

Section DetectionMore.
Context `{Capabilities}.

Lemma of_value_value t : EntityTypeEnum.of_value (EntityTypeEnum.value t) = Some t.
Proof. by destruct t. Qed.

Lemma ner_loop_types config ents : ∀ acc svc,
  ∃ new,
    (ner_loop config ents acc svc).1 = acc ++ new
    ∧ Forall (λ e, entity_type e ∈ entities config ∧ confidence e = 90
                   ∧ confidence_threshold config ≤ 90) new.
Proof.
  induction ents as [|ent rest IH]; intros acc svc.
  { exists []. simpl. by rewrite app_nil_r. }
  cbn [ner_loop]. case_bool_decide as Hin; [|apply IH].
  destruct (EntityTypeEnum.of_value _) as [t|] eqn:Hof; [|apply IH].
  destruct (Z.leb_spec (confidence_threshold config) 90) as [Hthr|]; [|apply IH].
  destruct (get_or_create_replacement (ent_text ent) t svc) as [tok svc1].
  set (span := mkSpan _ _ _ _ _ _).
  destruct (IH (acc ++ [span]) svc1) as (new & -> & Hall).
  exists (span :: new). rewrite <- app_assoc. split; [done|].
  constructor; [|done]. simpl. split; [|done].
  apply list_elem_of_fmap in Hin as (t' & Hl & Ht').
  rewrite Hl, of_value_value in Hof. by injection Hof as <-.
Qed.

Lemma pattern_loop_types config s pats : ∀ acc svc,
  ∃ new,
    (pattern_loop config s pats acc svc).1 = acc ++ new
    ∧ Forall (λ e, entity_type e ∈ entities config ∧ entity_type e ∈ pats
                   ∧ confidence e = 95) new.
Proof.
  induction pats as [|t rest IH]; intros acc svc.
  { exists []. simpl. by rewrite app_nil_r. }
  cbn [pattern_loop]. case_bool_decide as Hin.
  - destruct (match_loop_spec t (finditer t s) acc svc)
      as (new1 & Heq1 & _ & _ & Hfrom1 & _).
    destruct (match_loop t (finditer t s) acc svc) as [acc1 svc1].
    simpl in Heq1. subst acc1.
    destruct (IH (acc ++ new1) svc1) as (new2 & -> & Hall).
    exists (new1 ++ new2). rewrite <- app_assoc. split; [done|].
    apply Forall_app. split.
    + eapply Forall_impl; [exact Hfrom1|].
      intros e (-> & m & _ & _ & _ & _ & Hc). repeat split; [done | by left | done].
    + eapply Forall_impl; [exact Hall|].
      intros e (? & ? & ?). repeat split; [done | by right | done].
  - destruct (IH acc svc) as (new & -> & Hall). exists new. split; [done|].
    eapply Forall_impl; [exact Hall|].
    intros e (? & ? & ?). repeat split; [done | by right | done].
Qed.

Lemma collect_entities_types s l svc cands :
  (collect_entities s l svc).1 = Ok cands →
  Forall (λ e, entity_type e ∈ entities (privacy_configs l)
               ∧ ((confidence e = 90 ∧ is_Some nlp)
                  ∨ (confidence e = 95 ∧ entity_type e ∈ patterns))
               ∧ confidence_threshold (privacy_configs l) ≤ confidence e)
    cands.
Proof.
  assert (confidence_threshold (privacy_configs l) ≤ 95) as Hthr
    by (destruct l; simpl; lia).
  unfold collect_entities. destruct nlp as [tagger|] eqn:Hnlp.
  - destruct (tagger s) as [tagged|e]; [|done].
    destruct (ner_loop_types (privacy_configs l) tagged [] svc)
      as (new1 & Heq1 & Hall1).
    destruct (ner_loop (privacy_configs l) tagged [] svc) as [acc1 svc1].
    simpl in Heq1. subst acc1.
    destruct (pattern_loop_types (privacy_configs l) s patterns new1 svc1)
      as (new2 & Heq2 & Hall2).
    destruct (pattern_loop (privacy_configs l) s patterns new1 svc1)
      as [acc2 svc2].
    simpl in *. subst acc2. intros [= <-]. apply Forall_app. split.
    + eapply Forall_impl; [exact Hall1|].
      intros e (? & Hc & ?). split; [done|]. split; [left; eauto | lia].
    + eapply Forall_impl; [exact Hall2|].
      intros e (? & ? & Hc). split; [done|]. split; [by right | lia].
  - destruct (pattern_loop_types (privacy_configs l) s patterns [] svc)
      as (new2 & Heq2 & Hall2).
    destruct (pattern_loop (privacy_configs l) s patterns [] svc)
      as [acc2 svc2].
    simpl in *. subst acc2. intros [= <-].
    eapply Forall_impl; [exact Hall2|].
    intros e (? & ? & Hc). split; [done|]. split; [by right | lia].
Qed.

Lemma pattern_loop_no_match config s pats acc svc :
  (∀ t, finditer t s = []) →
  pattern_loop config s pats acc svc = (acc, svc).
Proof.
  intros Hnone. induction pats as [|t rest IH]; [done|].
  cbn [pattern_loop]. rewrite Hnone. cbn [match_loop].
  by destruct (bool_decide _).
Qed.

End DetectionMore.

(** X14: every entity [detect_sensitive_entities] reports has an entity
    type of the active privacy level and a confidence at or above the
    threshold of the level: 0.9 for an entity of the tagger, which needs
    the model to be loaded, or 0.95 for a match of one of the six
    patterns. *)
Theorem detected_within_level `{Capabilities} (s : string)
    (l : PrivacyLevel) (svc : PrivacyService)
    (ents : list SensitiveSpan) (e : SensitiveSpan) :
  (detect_sensitive_entities s l svc).1 = Ok ents →
  e ∈ ents →
  entity_type e ∈ entities (privacy_configs l)
  ∧ ((confidence e = 90 ∧ is_Some nlp)
     ∨ (confidence e = 95 ∧ entity_type e ∈ patterns))
  ∧ confidence_threshold (privacy_configs l) ≤ confidence e.
Proof.
  rewrite detect_result.
  destruct (collect_entities s l svc).1 as [cands|] eqn:Hc; [|done].
  intros [= <-] He%remove_overlapping_subset.
  pose proof (collect_entities_types s l svc cands Hc) as Hall.
  rewrite Forall_forall in Hall. by apply Hall.
Qed.

Lemma detected_within_level_witness :
  entity_type (mkSpan "555-123-4567" 50 62 PHONE 95 "<PHONE:531b2900>")
    ∈ entities (privacy_configs MINIMAL).
Proof.
  eapply (@detected_within_level Demo.caps Demo.sentence MINIMAL Demo.fresh).
  - vm_compute. reflexivity.
  - right. left.
Defined.

(** X15: when the tagger, if loaded, finds no entity in the text and no
    pattern matches, [sanitize_text] returns the text unchanged with the
    base score 0.5 and an empty audit list, and the service is left as it
    was. *)
Theorem sanitize_nothing_found `{Capabilities} (s : string)
    (l : PrivacyLevel) (pf : bool) (svc : PrivacyService) :
  (∀ t, finditer t s = []) →
  (∀ tagger, nlp = Some tagger → tagger s = Ok []) →
  detect_sensitive_entities s l svc = (Ok [], svc)
  ∧ sanitize_text s l pf svc = (Ok (s, 50, []), svc).
Proof.
  intros Hpat Htag.
  assert (collect_entities s l svc = (Ok [], svc)) as Hc.
  { unfold collect_entities. destruct nlp as [tagger|].
    - rewrite (Htag tagger eq_refl). cbn [ner_loop].
      by rewrite pattern_loop_no_match.
    - by rewrite pattern_loop_no_match. }
  assert (detect_sensitive_entities s l svc = (Ok [], svc)) as Hd.
  { unfold detect_sensitive_entities. by rewrite Hc. }
  split; [done|]. unfold sanitize_text. by rewrite Hd.
Qed.

Lemma sanitize_nothing_found_witness :
  @sanitize_text Demo.caps "hello" STRICT true Demo.fresh
  = (Ok ("hello", 50, []), Demo.fresh).
Proof.
  apply (@sanitize_nothing_found Demo.caps "hello" STRICT true Demo.fresh).
  - intros t. reflexivity.
  - intros tagger [= <-]. reflexivity.
Defined.


(** X17: the privacy score of a result is
    [min(1.0, 0.1 * n + 0.5)] for the number [n] of audit entries, which
    is the number of entities detection retained; it lies between 0.5
    and 1.0 and reaches 1.0 from five entities on. *)
Theorem privacy_score_of_result `{Capabilities} (s : string)
    (l : PrivacyLevel) (pf : bool) (svc : PrivacyService)
    (sanitized : string) (score : Z) (found : list AuditEntry) :
  (sanitize_text s l pf svc).1 = Ok (sanitized, score, found) →
  (∃ ents, (detect_sensitive_entities s l svc).1 = Ok ents
           ∧ length found = length ents)
  ∧ score = Z.min 100 (10 * Z.of_nat (length found) + 50)
  ∧ 50 ≤ score ≤ 100
  ∧ ((5 ≤ length found)%nat → score = 100).
Proof.
  unfold sanitize_text.
  destruct (detect_sensitive_entities s l svc) as [[ents|e] svc']; [|done].
  pose proof (replace_loop_found svc' pf (stable_sort start_desc ents) s [])
    as Hfound.
  destruct (replace_loop _ _ _ _ _) as [out found']. simpl in *.
  intros [= _ <- <-]. subst found'.
  rewrite length_fmap, stable_sort_length.
  split; [by exists ents|]. unfold privacy_score_of.
  rewrite stable_sort_length. lia.
Qed.

Lemma privacy_score_of_result_witness :
  80 = Z.min 100 (10 * Z.of_nat 3 + 50).
Proof.
  destruct (@privacy_score_of_result Demo.caps Demo.sentence STANDARD true
              Demo.fresh
              "<PERSON:2bb9dc2b>'s email is <EMAIL:ab0157dd> and phone is (888) 456-7890"
              80
              [mkAudit "555-123-4567" "(888) 456-7890" "PHONE" 95 50 62;
               mkAudit "john@example.com" "<EMAIL:ab0157dd>" "EMAIL" 95 20 36;
               mkAudit "John Doe" "<PERSON:2bb9dc2b>" "PERSON" 90 0 8])
    as (_ & Hscore & _).
  - vm_compute. reflexivity.
  - exact Hscore.
Defined.

(** ** The sanitised text *)

Section Rebuild.
Context `{Capabilities}.
Import PyStr PyStrFacts.

Lemma take_take n m s : (n ≤ m)%nat → take n (take m s) = take n s.
Proof.
  revert m s. induction n as [|n IH]; intros m s Hnm; [done|].
  destruct m as [|m]; [lia|]. destruct s as [|c s]; [done|].
  simpl. rewrite IH; [done | lia].
Qed.

Lemma take_app_exact s t : take (String.length s) (s +:+ t) = s.
Proof.
  induction s as [|c s IH]; [by destruct t|].
  rewrite app_cons. cbn [String.length take]. by rewrite IH.
Qed.

Lemma drop_app_exact s t : drop (String.length s) (s +:+ t) = t.
Proof.
  induction s as [|c s IH]; [done|].
  rewrite app_cons. cbn [String.length drop]. exact IH.
Qed.

Lemma take_app_at n s t : String.length s = n → take n (s +:+ t) = s.
Proof. intros <-. apply take_app_exact. Qed.

Lemma drop_app_at n s t : String.length s = n → drop n (s +:+ t) = t.
Proof. intros <-. apply drop_app_exact. Qed.

Lemma take_app_le n s t :
  (n ≤ String.length s)%nat → take n (s +:+ t) = take n s.
Proof.
  revert s. induction n as [|n IH]; intros s Hn; [done|].
  destruct s as [|c s]; cbn [String.length] in Hn; [lia|].
  rewrite app_cons. cbn [take]. rewrite IH; [done | lia].
Qed.

Lemma drop_take n m s : drop m (take (m + n) s) = take n (drop m s).
Proof.
  revert s. induction m as [|m IH]; intros s; simpl; [done|].
  destruct s as [|c s]; [by destruct n | apply IH].
Qed.

Lemma splice_text cur e r :
  0 ≤ start e → start e ≤ end_ e → end_ e ≤ len cur →
  splice cur e r
  = take (Z.to_nat (start e)) cur +:+ r +:+ drop (Z.to_nat (end_ e)) cur.
Proof.
  intros H0 Hse Hel. unfold splice, slice_to, slice_from, clamp.
  assert ((start e <? 0) = false) as -> by (apply Z.ltb_ge; lia).
  assert ((end_ e <? 0) = false) as -> by (apply Z.ltb_ge; lia).
  do 2 f_equal; [f_equal; lia | do 2 f_equal; lia].
Qed.

(** The loop, started on a text that agrees with [s] below [B], ends
    with the rebuilt text below [B] followed by what was above. *)
Lemma replace_loop_text svc pf s ents : ∀ B cur found,
  right_to_left B ents → B ≤ len cur →
  take (Z.to_nat B) cur = take (Z.to_nat B) s →
  (replace_loop svc pf ents cur found).1
  = rebuilt s B
      ((λ e, mkAudit (text e) (choose_replacement svc pf e)
               (EntityTypeEnum.value (entity_type e)) (confidence e)
               (start e) (end_ e)) <$> ents)
    +:+ drop (Z.to_nat B) cur.
Proof.
  induction ents as [|e rest IH]; intros B cur found Hrl HB Hagree.
  { simpl. by rewrite <- Hagree, take_drop. }
  destruct Hrl as (H0 & Hse & HeB & Hrest).
  cbn [replace_loop fmap list_fmap rebuilt a_start a_end a_replacement].
  set (r := choose_replacement svc pf e).
  assert (end_ e ≤ len cur) as Hel by lia.
  pose proof (splice_text cur e r H0 Hse Hel) as Hsp.
  assert (String.length (take (Z.to_nat (start e)) cur) = Z.to_nat (start e))
    as Hlt by (rewrite length_take; unfold len in *; lia).
  rewrite (IH (start e)); [|done|..].
  - rewrite Hsp, (drop_app_at _ _ _ Hlt).
    rewrite !app_assoc. do 2 f_equal.
    rewrite <- (slice_drop cur (Z.to_nat (end_ e)) (Z.to_nat B)) by lia.
    f_equal. unfold between, slice.
    replace (Z.to_nat (B - end_ e)) with (Z.to_nat B - Z.to_nat (end_ e))%nat
      by lia.
    rewrite <- !drop_take.
    replace (Z.to_nat (end_ e) + (Z.to_nat B - Z.to_nat (end_ e)))%nat
      with (Z.to_nat B) by lia.
    by rewrite Hagree.
  - rewrite Hsp. unfold len. rewrite !length_app, Hlt. lia.
  - rewrite Hsp, (take_app_at _ _ _ Hlt).
    rewrite <- (take_take (Z.to_nat (start e)) (Z.to_nat B) cur) by lia.
    rewrite Hagree. apply take_take. lia.
Qed.

End Rebuild.

(** X18: when the tagger and the patterns report non-empty spans inside
    the text, the sanitised text is the original text with exactly the
    spans of the audit entries exchanged for their replacements: every
    character outside those spans is kept, in place and in order. *)
Theorem sanitize_rebuilds_text `{Capabilities} (s : string)
    (l : PrivacyLevel) (pf : bool) (svc : PrivacyService)
    (sanitized : string) (score : Z) (found : list AuditEntry) :
  (∀ tagger tagged ent,
     nlp = Some tagger → tagger s = Ok tagged → ent ∈ tagged →
     0 ≤ start_char ent ∧ start_char ent < end_char ent
     ∧ end_char ent ≤ PyStr.len s) →
  (∀ t m, m ∈ finditer t s →
     0 ≤ m_start m ∧ m_start m < m_end m ∧ m_end m ≤ PyStr.len s) →
  (sanitize_text s l pf svc).1 = Ok (sanitized, score, found) →
  sanitized = rebuilt s (PyStr.len s) found.
Proof.
  intros Htag Hpat. unfold sanitize_text.
  pose proof (collect_entities_spec s l svc) as [_ Hspec].
  pose proof (detect_result s l svc) as Hres.
  destruct (detect_sensitive_entities s l svc) as [[ents|e] svc']; [|done].
  simpl in Hres.
  destruct (collect_entities s l svc).1 as [cands|] eqn:Hc; [|done].
  injection Hres as ->. destruct Hspec as [_ Horigin].
  assert (∀ x, x ∈ cands → span_within (PyStr.len s) x) as Hwithin.
  { intros x Hx. rewrite Forall_forall in Horigin.
    destruct (Horigin x Hx)
      as [(tagger & tagged & Hn & Ht & ent & Hent & _ & Hs & He & _)
         | (m & Hm & _ & Hs & He & _)].
    - unfold span_within. rewrite Hs, He. by eapply Htag.
    - unfold span_within. rewrite Hs, He. by eapply Hpat. }
  set (R := _remove_overlapping_entities cands).
  assert (∀ x, x ∈ R → span_within (PyStr.len s) x) as HwR.
  { intros x Hx. by apply Hwithin, remove_overlapping_subset. }
  destruct (disjoint_nonempty_NoDup R) as [Hnd Hdis].
  { apply remove_overlapping_disjoint. }
  { intros x Hx. by apply HwR. }
  set (F := stable_sort start_desc R).
  assert (right_to_left (PyStr.len s) F) as Hrl.
  { apply sorted_disjoint_right_to_left.
    - apply start_desc_sorted.
    - unfold F. by rewrite stable_sort_perm.
    - intros x y Hx%stable_sort_elem_of Hy%stable_sort_elem_of.
      by apply Hdis.
    - intros x Hx%stable_sort_elem_of. by apply HwR. }
  pose proof (replace_loop_text svc' pf s F (PyStr.len s) s [] Hrl
                ltac:(lia) eq_refl) as Htext.
  pose proof (replace_loop_found svc' pf F s []) as Hfound.
  destruct (replace_loop svc' pf F s []) as [out found'].
  simpl in Htext, Hfound. intros [= <- _ <-]. rewrite Htext, Hfound.
  unfold PyStr.len. rewrite Nat2Z.id.
  assert (PyStr.drop (String.length s) s = "") as ->.
  { pose proof (PyStrFacts.length_drop (String.length s) s) as Hl.
    rewrite Nat.sub_diag in Hl.
    destruct (PyStr.drop (String.length s) s) eqn:Hd; [done|].
    discriminate Hl. }
  apply PyStrFacts.app_empty_r.
Qed.

Lemma sanitize_rebuilds_text_witness :
  "<PERSON:2bb9dc2b>'s email is <EMAIL:ab0157dd> and phone is (888) 456-7890"
  = rebuilt Demo.sentence (PyStr.len Demo.sentence)
      [mkAudit "555-123-4567" "(888) 456-7890" "PHONE" 95 50 62;
       mkAudit "john@example.com" "<EMAIL:ab0157dd>" "EMAIL" 95 20 36;
       mkAudit "John Doe" "<PERSON:2bb9dc2b>" "PERSON" 90 0 8].
Proof.
  apply (@sanitize_rebuilds_text Demo.caps Demo.sentence STANDARD true
           Demo.fresh _ 80).
  - intros tagger tagged ent [= <-]. unfold Demo.tagger. simpl.
    intros [= <-] Hent. apply list_elem_of_singleton in Hent as ->.
    vm_compute. repeat split; discriminate.
  - intros t m Hm. destruct t; vm_compute in Hm;
      try (by apply elem_of_nil in Hm);
      apply list_elem_of_singleton in Hm as ->;
      vm_compute; repeat split; discriminate.
  - vm_compute. reflexivity.
Defined.

(** ** [main.py]: the single-text endpoint *)

(** X19: [/anonymize] of [main.py] answers 200 exactly when the text is
    not empty, the privacy level names one of the three levels and
    sanitisation with [preserve_format=True] succeeds, and then returns
    that result.  In every other case it answers 500, also for the 400 it
    raises itself for a missing text; a missing text or an unknown level
    leaves the service untouched. *)
Theorem main_anonymize_status `{Capabilities} (request : AnonymizeRequest)
    (svc : PrivacyService) :
  let text := default "" (ar_text request) in
  let level := default "standard" (ar_privacy_level request) in
  (∀ item,
     (MainApp.anonymize_text request svc).1 = HTTP200 item
     ↔ text ≠ ""
       ∧ ∃ l sanitized score found,
           PrivacyLevelEnum.of_value level = Some l
           ∧ (sanitize_text text l true svc).1 = Ok (sanitized, score, found)
           ∧ item = mkMainItem sanitized score found level None)
  ∧ (∀ status,
       (MainApp.anonymize_text request svc).1 = HTTPError status →
       status = 500)
  ∧ (text = "" ∨ PrivacyLevelEnum.of_value level = None →
     MainApp.anonymize_text request svc = (HTTPError 500, svc)).
Proof.
  cbv zeta. unfold MainApp.anonymize_text, MainApp.anonymize_body.
  set (text := default "" (ar_text request)).
  set (level := default "standard" (ar_privacy_level request)).
  unfold sanitize_text_str.
  case_bool_decide as Htext.
  { simpl. split; [|split]; [| by intros status [= <-] | done].
    intros item. split; [done | by intros [? _]]. }
  destruct (PrivacyLevelEnum.of_value level) as [l|] eqn:Hl.
  2:{ simpl. split; [|split]; [| by intros status [= <-] | done].
      intros item. split; [done | by intros (_ & ? & ? & ? & ? & ? & _)]. }
  destruct (sanitize_text text l true svc)
    as [[[[sanitized score] found]|e] svc'] eqn:Hs; simpl.
  - split; [|split].
    + intros item. split.
      * intros [= <-]. split; [done|]. exists l, sanitized, score, found.
        repeat split; try done; by rewrite ?Hs.
      * intros (_ & l' & sa & sc & fo & Hl' & Hok & ->).
        injection Hl' as <-. rewrite ?Hs in Hok. simpl in Hok.
        by injection Hok as <- <- <-.
    + by intros status.
    + by intros [? | ?].
  - split; [|split].
    + intros item. split; [done|].
      intros (_ & l' & sa & sc & fo & Hl' & Hok & _).
      injection Hl' as <-. rewrite ?Hs in Hok. discriminate Hok.
    + by intros status [= <-].
    + by intros [? | ?].
Qed.

(** ** [main.py]: labelling *)

Section Labelling.


End Labelling.

(** X20: the fallback labelling always answers with confidence 0.6 and
    one of seven fixed pairs of label and category.  Its categories
    ["Hallucination"] and ["General"] are not in the list [CATEGORIES]
    that [/categories] returns, whose second entry is the three literals
    run together; the other five are. *)
Theorem fallback_label_categories (p : string) :
  let r := generate_fallback_label p in
  lr_confidence r = 60
  ∧ (lr_label r, lr_category r)
    ∈ [("Harmful Content", "Harmful Content");
       ("Factual Error", "Hallucination");
       ("Lack of Creativity", "Creativity Weakness");
       ("Context Issue", "Context Failures");
       ("Reasoning Error", "Reasoning Errors");
       ("Alignment Issue", "Alignment Issues");
       ("AI Interaction", "General")]
  ∧ (lr_category r ∈ CATEGORIES
     ↔ lr_category r ≠ "Hallucination" ∧ lr_category r ≠ "General")
  ∧ length CATEGORIES = 6%nat.
Proof.
  cbv zeta. unfold generate_fallback_label.
  assert (∀ c : string, c ∈ CATEGORIES →
            c = "Harmful Content"
            ∨ c = "Instruction FollowingRelevanceHallucination"
            ∨ c = "Reasoning Errors" ∨ c = "Creativity Weakness"
            ∨ c = "Alignment Issues" ∨ c = "Context Failures") as Hcases.
  { intros c Hin. unfold CATEGORIES in Hin.
    repeat (apply elem_of_cons in Hin as [Hin | Hin]; [by auto 10|]).
    by apply elem_of_nil in Hin. }
  assert (("Hallucination" ∉ CATEGORIES) ∧ ("General" ∉ CATEGORIES))
    as [Hh Hg].
  { split; intros Hin%Hcases;
      repeat (destruct Hin as [Hin | Hin]; [discriminate Hin|]);
      discriminate Hin. }
  repeat match goal with
         | |- context [if ?b then _ else _] => destruct b
         end; simpl;
    (split; [done|];
     split; [rewrite list_elem_of_In; simpl; tauto|]; split; [|done]);
    first [ by (split; [intros Hin; by ((apply Hh in Hin) || (apply Hg in Hin))
                       | by intros [? ?]])
          | split; [by intros _
                   | intros _; unfold CATEGORIES; rewrite list_elem_of_In;
                     simpl; tauto] ].
Qed.

